(** * PyCoverTree: a shallow embedding of [covertree.py]

    The Python module defines two classes, [Node] and [CoverTree].  Nodes are
    mutable objects that reference each other (children lists, parent
    back-reference), so the embedding keeps an explicit object store: a node
    is named by its index in a list of node records (allocation appends, so
    identities are never reused), and every method that mutates a node
    returns the updated store.

    Modelling conventions.
    - A number (a distance, a value of [self.base ** i]) is a finite
      number, so a rational [Q]: every int and every finite float is one.
      Python's [<=], [>] and [==] compare numbers exactly, also an int with
      a float: they are [Qle_bool], its negation and [Qeq_bool].
    - The module computes with numbers in two places only, the power
      [self.base ** i] and the sum [d + self.base ** i].  What they
      evaluate to depends on the number types that the caller chose for
      [base] and for the values of [distance]: a float power is rounded,
      underflows to [0.0] and raises [OverflowError] when it overflows; an
      int sum is exact, a float sum is rounded and overflows to
      [float('inf')], and an int too large for a float raises
      [OverflowError] when added to one.  The model does not fix the number
      types: the power and the sum are the variables [base_pow] and [add]
      of the section below, each a function that gives a value or raises
      (evaluation has no side effect, and [self.base] is never reassigned,
      so the same arguments always give the same outcome).  What a theorem
      needs of them is a hypothesis of that theorem.
    - [exact_pow base] and [exact_add] are the arithmetic without rounding
      and without overflow: that of a [fractions.Fraction] base with
      Fraction or int distances, and that of ints and floats as long as
      every power and sum involved is representable, as for base 2, levels
      between -1074 and 1023 and dyadic points of moderate size.  The
      concrete runs below are of that kind (base 2, maxlevel 5, points 0,
      0.5, 1, 1.5, 2, ..., 100), except for one run with the float base
      2.0 at the top of the float range and one run in base 3 that uses
      the float values of [3 ** i].
    - Levels and [k] are Python ints: [Z].
    - [self.distance] is assigned once in [__init__] and never reassigned;
      it is a variable of the section below.  The distance function is
      taken to be total (it raises nothing).
    - A raised exception is [Raise cls] with [cls] the name of the Python
      exception class.  Every [raise] site of the module is reached before
      the method has mutated anything, so a raising call leaves the tree as
      it was.
    - [random.choice] draws an index; the draw is an explicit argument [r]
      of the operations that call it (each call draws at most once).
    - [while] loops and the recursion of [find_rec] take fuel; [None] means
      that the fuel ran out before the method returned.  The loops also
      report how many times their body ran. *)

From Stdlib Require Import ZArith QArith Qabs Qpower String List Lia Lqa.
From stdpp Require Import base option list sorting gmap.

Close Scope Q_scope.
Open Scope Z_scope.

(** ** Exceptions and control *)

Inductive result (A : Type) : Type :=
| Ok (a : A)
| Raise (cls : string).
Arguments Ok {A} a.
Arguments Raise {A} cls.

Definition bind {A B : Type} (m : result A) (f : A -> result B) : result B :=
  match m with
  | Ok a => f a
  | Raise cls => Raise cls
  end.

Notation "x <- m ;; k" := (bind m (fun x => k))
  (at level 100, m at next level, right associativity).

(** What one run of a loop body decides: go round again with a new loop
    state, or [return] from the enclosing method. *)
Inductive ctl (St R : Type) : Type :=
| Next (s : St)
| Return (r : R).
Arguments Next {St R} s.
Arguments Return {St R} r.

(** [while cond: body].  The outcome [Ok (Next s)] is the normal exit of the
    loop (condition false) in state [s]; the number is how many times the
    body ran. *)
Fixpoint while {St R : Type} (fuel : nat) (cond : St -> bool)
    (body : St -> result (ctl St R)) (s : St)
    : option (result (ctl St R) * nat) :=
  match fuel with
  | O => None
  | S fuel' =>
    if cond s then
      match body s with
      | Raise cls => Some (Raise cls, 1%nat)
      | Ok (Return r) => Some (Ok (Return r), 1%nat)
      | Ok (Next s') =>
        match while fuel' cond body s' with
        | Some (out, n) => Some (out, S n)
        | None => None
        end
      end
    else Some (Ok (Next s), 0%nat)
  end.

(** [for i in levels: body]; the number is how many times the body ran. *)
Fixpoint for_each {St : Type} (body : Z -> St -> result St) (levels : list Z)
    (s : St) : result St * nat :=
  match levels with
  | [] => (Ok s, 0%nat)
  | i :: levels' =>
    match body i s with
    | Raise cls => (Raise cls, 1%nat)
    | Ok s' => let '(out, n) := for_each body levels' s' in (out, S n)
    end
  end.

(** [reversed(xrange(lo, hi))] *)
Definition reversed_xrange (lo hi : Z) : list Z := rev (seqZ lo (hi - lo)).

(** ** Built-ins used by the module *)

(** [x > y] on numbers *)
Definition Qgt_bool (x y : Q) : bool := negb (Qle_bool x y).

(** [min(l)]: the first smallest element; [ValueError] on an empty list. *)
Definition py_min (l : list Q) : result Q :=
  match l with
  | [] => Raise "ValueError"
  | x :: l' => Ok (fold_left (fun m y => if Qgt_bool m y then y else m) l' x)
  end.

(** [sorted(l, key=key)]: stable, ascending. *)
Fixpoint insert_by {A : Type} (key : A -> Q) (x : A) (l : list A) : list A :=
  match l with
  | [] => [x]
  | y :: l' =>
    if Qle_bool (key x) (key y) then x :: y :: l' else y :: insert_by key x l'
  end.

Definition sorted_by {A : Type} (key : A -> Q) (l : list A) : list A :=
  foldr (insert_by key) [] l.

(** [heapq.nsmallest(k, l, key)], documented as [sorted(l, key=key)[:k]]
    (and empty for [k <= 0]). *)
Definition nsmallest {A : Type} (k : Z) (l : list A) (key : A -> Q) : list A :=
  take (Z.to_nat k) (sorted_by key l).

(** [l[-1]] and [l[0]]: [IndexError] on an empty list. *)
Definition index_last {A : Type} (l : list A) : result A :=
  match last l with
  | Some x => Ok x
  | None => Raise "IndexError"
  end.

Definition index_first {A : Type} (l : list A) : result A :=
  match l with
  | x :: _ => Ok x
  | [] => Raise "IndexError"
  end.

(** [random.choice(l)] with draw [r]: [l[int(random() * len(l))]], which is
    an [IndexError] on an empty list. *)
Definition choice {A : Type} (r : nat) (l : list A) : result A :=
  match l !! (r mod length l)%nat with
  | Some x => Ok x
  | None => Raise "IndexError"
  end.

(** [[(q, d) for q, d in zip(Q, Q_p_ds) if d <= bound]] *)
Definition within {A : Type} (bound : Q) (Q_ : list A) (Q_p_ds : list Q)
    : list (A * Q) :=
  List.filter (fun qd => Qle_bool (snd qd) bound) (combine Q_ Q_p_ds).

(** The same comprehension with its bound still to be evaluated: Python
    evaluates the bound expression once per element it tests, so not at all
    when [zip(Q, Q_p_ds)] is empty. *)
Definition within_lazy {A : Type} (bound : result Q) (Q_ : list A)
    (Q_p_ds : list Q) : result (list (A * Q)) :=
  match combine Q_ Q_p_ds with
  | [] => Ok []
  | _ :: _ => b <- bound ;; Ok (within b Q_ Q_p_ds)
  end.

(** ** Numbers *)

(** The value of a sum, used as the bound of a comparison [d <= bound]: a
    number, or [float('inf')]. *)
Inductive bound : Type :=
| Fin (q : Q)
| Inf.

(** [[(q, d) for q, d in zip(Q, Q_p_ds) if d <= bound]] for the value of a
    sum: every number is [<= float('inf')]. *)
Definition within_bound {A : Type} (b : bound) (Q_ : list A) (Q_p_ds : list Q)
    : list (A * Q) :=
  match b with
  | Fin q => within q Q_ Q_p_ds
  | Inf => combine Q_ Q_p_ds
  end.


Definition within_lazy_bound {A : Type} (b : result bound) (Q_ : list A)
    (Q_p_ds : list Q) : result (list (A * Q)) :=
  match combine Q_ Q_p_ds with
  | [] => Ok []
  | _ :: _ => b' <- b ;; Ok (within_bound b' Q_ Q_p_ds)
  end.

(** Arithmetic without rounding and without overflow: [base ** i], for which
    Python raises [ZeroDivisionError] when the base is zero and the
    exponent negative, and [x + y]. *)
Definition exact_pow (base : Q) (i : Z) : result Q :=
  if Qeq_bool base 0 && (i <? 0) then Raise "ZeroDivisionError"
  else Ok (base ^ i)%Q.

Definition exact_add (x y : Q) : result bound := Ok (Fin (x + y)%Q).

Section CoverTree.

Context {point : Type}.
Variable distance : point -> point -> Q.

(** [self.base ** i] and [x + y], as the interpreter evaluates them. *)
Variable base_pow : Z -> result Q.
Variable add : Q -> Q -> result bound.

(** ** class Node *)

Record Node : Type := mkNode {
  data : point;
  children : gmap Z (list nat);   (* level -> child references *)
  parent : option nat
}.

(** [Node(data)] allocates a fresh object. *)
Definition Node_init (h : list Node) (p : point) : list Node * nat :=
  (h ++ [mkNode p ∅ None], length h).

Definition set_children (nd : Node) (c : gmap Z (list nat)) : Node :=
  mkNode (data nd) c (parent nd).

Definition set_parent (nd : Node) (q : option nat) : Node :=
  mkNode (data nd) (children nd) q.

(** [self.addChild(child, level)]: the [try] block appends [child] unless it
    is already listed (membership is object identity, the class defines no
    [__eq__]); [KeyError] creates the list; then, outside the [try],
    [child.parent = self]. *)
Definition addChild (h : list Node) (self child : nat) (level : Z) : list Node :=
  let h1 :=
    match h !! self with
    | Some nd =>
      match children nd !! level with
      | Some l =>
        if bool_decide (child ∈ l) then h
        else <[self := set_children nd (<[level := l ++ [child]]> (children nd))]> h
      | None =>
        <[self := set_children nd (<[level := [child]]> (children nd))]> h
      end
    | None => h
    end in
  match h1 !! child with
  | Some cd => <[child := set_parent cd (Some self)]> h1
  | None => h1
  end.

(** The [children] dictionary of the receiver after the [try] block of
    [addChild]. *)
Definition children_after (nd : Node) (child : nat) (level : Z)
    : gmap Z (list nat) :=
  match children nd !! level with
  | Some l =>
    if bool_decide (child ∈ l) then children nd
    else <[level := l ++ [child]]> (children nd)
  | None => <[level := [child]]> (children nd)
  end.

(** [self.getOnlyChildren(level)] *)
Definition getOnlyChildren (h : list Node) (self : nat) (level : Z) : list nat :=
  match h !! self with
  | Some nd => default [] (children nd !! level)
  | None => []
  end.

(** [self.getChildren(level)] *)
Definition getChildren (h : list Node) (self : nat) (level : Z) : list nat :=
  self :: getOnlyChildren h self level.

(** ** class CoverTree *)

Record CoverTree : Type := mkTree {
  heap : list Node;
  root : option nat;
  maxlevel : Z;
  minlevel : Z
}.

(** [CoverTree(distance, maxlevel=..., base=...)] with the default
    [root = None]. *)
Definition CoverTree_init (maxlevel : Z) : CoverTree :=
  mkTree [] None maxlevel maxlevel.

(** [self.distance(p, q.data)] for a node reference [q] *)
Definition node_dist (h : list Node) (p : point) (q : nat) : Q :=
  match h !! q with
  | Some nd => distance p (data nd)
  | None => 0%Q
  end.

(** [q.data] *)
Definition node_data (h : list Node) (q : nat) : option point :=
  data <$> h !! q.

Definition getChildrenDist (h : list Node) (p : point) (Qi : list nat)
    (Qi_p_ds : list Q) (i : Z) : list nat * list Q :=
  let Q_ := concat (map (fun n => getOnlyChildren h n i) Qi) in
  let Q_p_ds := map (node_dist h p) Q_ in
  (Qi ++ Q_, Qi_p_ds ++ Q_p_ds).

Definition args_min (h : list Node) (Q_ : list nat) (Q_p_ds : list Q) (k : Z)
    : list point :=
  let z := nsmallest k (combine Q_ Q_p_ds) snd in
  omap (fun qd => node_data h (fst qd)) z.

(** The first two statements of every traversal: [Qi = [self.root]] and
    [Qi_p_ds = [self.distance(p, self.root.data)]].  With no root,
    [self.root.data] is an attribute access on [None]. *)
Definition start (t : CoverTree) (p : point) : result (list nat * list Q) :=
  match root t with
  | Some r => Ok ([r], [node_dist (heap t) p r])
  | None => Raise "AttributeError"
  end.

(** [parent.addChild(Node(p), pi)] followed (or, in [knn_insert_iter],
    preceded) by [self.minlevel = min(self.minlevel, pi)]. *)
Definition attach (t : CoverTree) (par : nat) (p : point) (pi : Z) : CoverTree :=
  let '(h, n) := Node_init (heap t) p in
  mkTree (addChild h par n pi) (root t) (maxlevel t) (Z.min (minlevel t) pi).

(** *** insert *)

Definition insert_state : Type := list nat * list Q * Z.

Definition insert_body (t : CoverTree) (p : point) (r : nat)
    (s : insert_state) : result (ctl insert_state CoverTree) :=
  let '(Qi, Qi_p_ds, i) := s in
  let '(Q_, Q_p_ds) := getChildrenDist (heap t) p Qi Qi_p_ds i in
  d_p_Q <- py_min Q_p_ds ;;
  if Qeq_bool d_p_Q 0 then Ok (Return t)
  else
    b_i <- base_pow i ;;
    if Qgt_bool d_p_Q b_i then
      let pi := i + 1 in
      zp <- within_lazy (base_pow pi) Qi Qi_p_ds ;;
      let possParents := map fst zp in
      par <- choice r possParents ;;
      Ok (Return (attach t par p pi))
    else
      zn <- within_lazy (base_pow i) Q_ Q_p_ds ;;
      Ok (Next (map fst zn, map snd zn, i - 1)).

Definition insert_iter (fuel : nat) (t : CoverTree) (p : point) (r : nat)
    : option (result CoverTree * nat) :=
  match start t p with
  | Raise cls => Some (Raise cls, 0%nat)
  | Ok (Qi, Qi_p_ds) =>
    match while fuel (fun _ => true) (insert_body t p r) (Qi, Qi_p_ds, maxlevel t) with
    | None => None
    | Some (Raise cls, n) => Some (Raise cls, n)
    | Some (Ok (Return t'), n) => Some (Ok t', n)
    | Some (Ok (Next _), n) => Some (Ok t, n)
    end
  end.

Definition insert (fuel : nat) (t : CoverTree) (p : point) (r : nat)
    : option (result CoverTree * nat) :=
  match root t with
  | None =>
    let '(h, n) := Node_init (heap t) p in
    Some (Ok (mkTree h (Some n) (maxlevel t) (minlevel t)), 0%nat)
  | Some _ => insert_iter fuel t p r
  end.

(** *** knn *)

Definition knn_body (t : CoverTree) (p : point) (k : Z) (i : Z)
    (s : list nat * list Q) : result (list nat * list Q) :=
  let '(Qi, Qi_p_ds) := s in
  let '(Q_, Q_p_ds) := getChildrenDist (heap t) p Qi Qi_p_ds i in
  d_p_Q <- index_last (nsmallest k Q_p_ds id) ;;
  zn <- within_lazy_bound (b_i <- base_pow i ;; add d_p_Q b_i) Q_ Q_p_ds ;;
  Ok (map fst zn, map snd zn).

Definition knn_iter (t : CoverTree) (p : point) (k : Z)
    : result (list point) * nat :=
  match start t p with
  | Raise cls => (Raise cls, 0%nat)
  | Ok s =>
    match for_each (knn_body t p k)
            (reversed_xrange (minlevel t) (maxlevel t + 1)) s with
    | (Raise cls, n) => (Raise cls, n)
    | (Ok (Qi, Qi_p_ds), n) => (Ok (args_min (heap t) Qi Qi_p_ds k), n)
    end
  end.

Definition knn (t : CoverTree) (p : point) (k : Z) : result (list point) * nat :=
  knn_iter t p k.

(** *** knn_insert *)

(** Loop state: [Qi], [Qi_p_ds], [i], and [pi]/[parent], which are unbound
    until [found_parent] is set. *)
Definition knn_insert_state : Type := list nat * list Q * Z * option (Z * nat).

Definition knn_insert_cond (t : CoverTree) (s : knn_insert_state) : bool :=
  let '(_, _, i, found) := s in
  negb (bool_decide (is_Some found)) || (minlevel t <=? i).

Definition knn_insert_body (t : CoverTree) (p : point) (k : Z) (r : nat)
    (s : knn_insert_state) : result (ctl knn_insert_state Empty_set) :=
  let '(Qi, Qi_p_ds, i, found) := s in
  let '(Q_, Q_p_ds) := getChildrenDist (heap t) p Qi Qi_p_ds i in
  let d_k := nsmallest k Q_p_ds id in
  d_p_Q_h <- index_last d_k ;;
  d_p_Q_l <- index_first d_k ;;
  found' <-
    match found with
    | Some _ => Ok found
    | None =>
      b_i <- base_pow i ;;
      if Qgt_bool d_p_Q_l b_i then
        let pi := i + 1 in
        zp <- within_lazy (base_pow pi) Qi Qi_p_ds ;;
        par <- choice r (map fst zp) ;;
        Ok (Some (pi, par))
      else Ok None
    end ;;
  zn <- within_lazy_bound (b_i <- base_pow i ;; add d_p_Q_h b_i) Q_ Q_p_ds ;;
  Ok (Next (map fst zn, map snd zn, i - 1, found')).

Definition knn_insert_iter (fuel : nat) (t : CoverTree) (p : point) (k : Z)
    (r : nat) : option (result (list point * CoverTree) * nat) :=
  match start t p with
  | Raise cls => Some (Raise cls, 0%nat)
  | Ok (Qi, Qi_p_ds) =>
    match while fuel (knn_insert_cond t) (knn_insert_body t p k r)
            (Qi, Qi_p_ds, maxlevel t, None) with
    | None => None
    | Some (Raise cls, n) => Some (Raise cls, n)
    | Some (Ok (Return res), n) => match res with end
    | Some (Ok (Next (Qi', Qi_p_ds', _, found)), n) =>
      match found with
      | None => Some (Raise "UnboundLocalError", n)
      | Some (pi, par) =>
        let t' := attach t par p pi in
        Some (Ok (args_min (heap t') Qi' Qi_p_ds' k, t'), n)
      end
    end
  end.

Definition knn_insert (fuel : nat) (t : CoverTree) (p : point) (k : Z)
    (r : nat) : option (result (list point * CoverTree) * nat) :=
  knn_insert_iter fuel t p k r.

(** *** find *)

(** The number returned is how many times [find_rec] was entered. *)
Fixpoint find_rec (fuel : nat) (t : CoverTree) (p : point) (Qi : list nat)
    (Qi_p_ds : list Q) (i : Z) : option (result (bool * option Z) * nat) :=
  match fuel with
  | O => None
  | S fuel' =>
    let '(Q_, Q_p_ds) := getChildrenDist (heap t) p Qi Qi_p_ds i in
    match within_lazy (base_pow i) Q_ Q_p_ds with
    | Raise cls => Some (Raise cls, 1%nat)
    | Ok zn =>
      let Qi_next := map fst zn in
      let Qi_next_p_ds := map snd zn in
      match py_min Qi_p_ds with
      | Raise cls => Some (Raise cls, 1%nat)
      | Ok d_p_Qi =>
        if i <? minlevel t then Some (Ok (false, None), 1%nat)
        else if Qeq_bool d_p_Qi 0 then Some (Ok (true, Some i), 1%nat)
        else
          match find_rec fuel' t p Qi_next Qi_next_p_ds (i - 1) with
          | Some (out, n) => Some (out, S n)
          | None => None
          end
      end
    end
  end.

Definition find (fuel : nat) (t : CoverTree) (p : point)
    : option (result (bool * option Z) * nat) :=
  match start t p with
  | Raise cls => Some (Raise cls, 0%nat)
  | Ok (Qi, Qi_p_ds) => find_rec fuel t p Qi Qi_p_ds (maxlevel t)
  end.

(** *** Sequences of operations *)

Inductive op : Type :=
| Insert (p : point) (r : nat)
| KnnInsert (p : point) (k : Z) (r : nat).

(** The tree after one operation.  A call that raises has mutated nothing,
    so the tree that a caller sees afterwards is the one it had before. *)
Definition run_op (fuel : nat) (t : CoverTree) (o : op) : option CoverTree :=
  match o with
  | Insert p r =>
    match insert fuel t p r with
    | None => None
    | Some (Ok t', _) => Some t'
    | Some (Raise _, _) => Some t
    end
  | KnnInsert p k r =>
    match knn_insert fuel t p k r with
    | None => None
    | Some (Ok (_, t'), _) => Some t'
    | Some (Raise _, _) => Some t
    end
  end.

Fixpoint run_ops (fuel : nat) (t : CoverTree) (ops : list op) : option CoverTree :=
  match ops with
  | [] => Some t
  | o :: ops' =>
    match run_op fuel t o with
    | Some t' => run_ops fuel t' ops'
    | None => None
    end
  end.

(** A sequence of [insert] calls all of which return normally. *)
Fixpoint insert_all (fuel : nat) (t : CoverTree) (ps : list (point * nat))
    : option CoverTree :=
  match ps with
  | [] => Some t
  | (p, r) :: ps' =>
    match insert fuel t p r with
    | Some (Ok t', _) => insert_all fuel t' ps'
    | _ => None
    end
  end.

(** *** Reference definitions for the properties *)

(** The stored points, in allocation order. *)
Definition points (t : CoverTree) : list point := map data (heap t).

(** Brute-force scan: all stored points sorted by distance to [p], the first
    [k] of them. *)
Definition brute_force (t : CoverTree) (p : point) (k : Z) : list point :=
  nsmallest k (points t) (distance p).

(** *** The covering invariant *)

(** [d <= self.base ** L] evaluates to true. *)
Definition le_pow (d : Q) (L : Z) : Prop :=
  ∃ b, base_pow L = Ok b ∧ (d <= b)%Q.

(** Every child listed under a node at key [L] points back to that node and
    lies within [self.base ** L] of it. *)
Definition covered (h : list Node) : Prop :=
  ∀ q qd L l c,
    h !! q = Some qd → children qd !! L = Some l → c ∈ l →
    ∃ cd, h !! c = Some cd ∧ parent cd = Some q
          ∧ le_pow (distance (data cd) (data qd)) L.

(** Every node with a parent reference is listed by that parent. *)
Definition parents_listed (h : list Node) : Prop :=
  ∀ c cd q,
    h !! c = Some cd → parent cd = Some q →
    ∃ qd L l, h !! q = Some qd ∧ children qd !! L = Some l ∧ c ∈ l.

Definition wf (t : CoverTree) : Prop :=
  covered (heap t) ∧ parents_listed (heap t)
  ∧ ∀ r, root t = Some r → (r < length (heap t))%nat.

(** The candidate lists of a traversal: live references, paired with their
    distances to the query point. *)
Definition cands (h : list Node) (p : point) (Qi : list nat) (ds : list Q)
    : Prop :=
  Forall (λ q, (q < length h)%nat) Qi ∧ ds = map (node_dist h p) Qi.

(** The parent recorded by [knn_insert_iter], once found: a live node within
    [self.base ** pi] of the new point. *)
Definition found_ok (h : list Node) (p : point) (found : option (Z * nat))
    : Prop :=
  ∀ pi par, found = Some (pi, par) →
    ∃ nd, h !! par = Some nd ∧ le_pow (distance p (data nd)) pi.

End CoverTree.

Arguments Node point : clear implicits.
Arguments CoverTree point : clear implicits.
Arguments op point : clear implicits.
Arguments CoverTree_init {point} maxlevel.

(** ** Detaching a node *)

Section Detach.

Context {point : Type}.

(** [l.remove(x)]: drops the first occurrence of [x]; [ValueError] when
    there is none. *)
Fixpoint list_remove (x : nat) (l : list nat) : result (list nat) :=
  match l with
  | [] => Raise "ValueError"
  | y :: l' =>
    if bool_decide (x = y) then Ok l'
    else l'' <- list_remove x l' ;; Ok (y :: l'')
  end.

(** [self.removeConnections(level)]: with a parent, [self] is removed from
    [self.parent.children[level+1]] ([KeyError] when the parent has no such
    key, [ValueError] when the list does not hold [self]) and then
    [self.parent = None]; without a parent nothing happens. *)
Definition removeConnections (h : list (Node point)) (self : nat) (level : Z)
    : result (list (Node point)) :=
  match h !! self with
  | None => Ok h
  | Some nd =>
    match parent nd with
    | None => Ok h
    | Some q =>
      match h !! q with
      | None => Ok h
      | Some qd =>
        match children qd !! (level + 1) with
        | None => Raise "KeyError"
        | Some l =>
          l' <- list_remove self l ;;
          let h1 :=
            <[q := set_children qd (<[level + 1 := l']> (children qd))]> h in
          match h1 !! self with
          | Some nd1 => Ok (<[self := set_parent nd1 None]> h1)
          | None => Ok h1
          end
        end
      end
    end
  end.

End Detach.

(** ** Bookkeeping of the mutating operations *)

Section Bookkeeping.

Context {point : Type}.
Variable distance : point -> point -> Q.
Variable base_pow : Z -> result Q.

(** The point that an operation inserts. *)
Definition op_point (o : op point) : point :=
  match o with
  | Insert p _ => p
  | KnnInsert p _ _ => p
  end.

(** [t'] is [t] with a fresh leaf for [p] attached under a live node [par]
    at a key [pi] not above [maxlevel + 1], the parent being within
    [self.base ** pi] of [p]. *)
Definition attached (t : CoverTree point) (p : point) (t' : CoverTree point)
    : Prop :=
  ∃ par nd pi,
    t' = attach t par p pi ∧ heap t !! par = Some nd
    ∧ pi ≤ maxlevel t + 1 ∧ le_pow base_pow (distance p (data nd)) pi.

(** The level range and the shape of the store: [minlevel] is not above
    [maxlevel]; the root, once there, is the first node allocated; every
    key of a children dictionary lies between [minlevel] and
    [maxlevel + 1], and no child list repeats a node. *)
Definition levels_ok (t : CoverTree point) : Prop :=
  minlevel t ≤ maxlevel t
  ∧ match root t with
    | None => heap t = []
    | Some r => r = 0%nat ∧ heap t ≠ []
    end
  ∧ ∀ q qd L l, heap t !! q = Some qd → children qd !! L = Some l →
      minlevel t ≤ L ≤ maxlevel t + 1 ∧ NoDup l.

(** Where the nodes hang: the root has no parent; every other node has a
    parent and is listed once, by that parent. *)
Definition placed (t : CoverTree point) : Prop :=
  (∀ r nd, root t = Some r → heap t !! r = Some nd → parent nd = None)
  ∧ ∀ n nd, heap t !! n = Some nd → root t ≠ Some n →
      ∃ q L, parent nd = Some q
        ∧ n ∈ getOnlyChildren (heap t) q L
        ∧ ∀ q' L', n ∈ getOnlyChildren (heap t) q' L' → q' = q ∧ L' = L.

End Bookkeeping.

(** ** The one-dimensional scenario: base 2, maxlevel 5, |a - b| *)

Module Scenario.

Definition absdist (a b : Q) : Q := Qabs (a - b).

Definition empty : CoverTree Q := CoverTree_init 5.

(** Successive [insert] calls on the empty tree; the random draw is 0. *)
Definition build (ps : list Q) : option (CoverTree Q) :=
  insert_all absdist (exact_pow 2) 50 empty (map (λ p, (p, 0%nat)) ps).

(** The trees after [insert(0)], after [insert(0); insert(1)] and after
    [insert(0); insert(1); insert(2)]. *)
Definition tree0 : CoverTree Q := default empty (build [0%Q]).
Definition tree01 : CoverTree Q := default empty (build [0%Q; 1%Q]).
Definition tree012 : CoverTree Q := default empty (build [0%Q; 1%Q; 2%Q]).

(** The scenario as a call sequence: [insert] of 0, 1, 2 and 100. *)
Definition scenario_ops : list (op Q) :=
  [Insert 0%Q 0%nat; Insert 1%Q 0%nat; Insert 2%Q 0%nat; Insert 100%Q 0%nat].

Definition scenario_tree : CoverTree Q :=
  default empty (run_ops absdist (exact_pow 2) exact_add 50 empty scenario_ops).

(** [l] holds exactly the points [a] and [b]. *)
Definition is_pair (l : list Q) (a b : Q) : Prop :=
  ∀ x, x ∈ l ↔ x = a ∨ x = b.

(** A sequence that mixes both mutating operations. *)
Definition mixed_ops : list (op Q) :=
  [Insert 0%Q 0%nat; Insert 1%Q 0%nat; KnnInsert 2%Q 1 0%nat;
   Insert (1 # 2)%Q 0%nat].

Definition mixed_tree : CoverTree Q :=
  default empty (run_ops absdist (exact_pow 2) exact_add 50 empty mixed_ops).

(** [2.0 ** i] for the float base 2.0: exact from [2 ^ (-1074)] to
    [2 ^ 1023], [0.0] below (underflow), and [OverflowError] above. *)
Definition float_pow2 (i : Z) : result Q :=
  if 1024 <=? i then Raise "OverflowError"
  else if i <? -1074 then Ok 0%Q
  else Ok (2 ^ i)%Q.

(** [CoverTree(distance, maxlevel=1023, base=2.0)] after [insert(0.0)]. *)
Definition top_tree : CoverTree Q :=
  mkTree [mkNode 0%Q ∅ None] (Some 0%nat) 1023 1023.

(** A run in base 3.  [3 ** i] as Python evaluates it: the exact int for
    [i >= 0], and for [i < 0] a float, the float nearest to the exact power.
    The table holds the floats for the levels -1 to -6, which are the
    negative levels that the run visits ([(3.0 ** i).as_integer_ratio()]);
    it gives the exact power elsewhere. *)
Definition float_pow3 (i : Z) : result Q :=
  match i with
  | -1 => Ok (6004799503160661 # 18014398509481984)%Q
  | -2 => Ok (2001599834386887 # 18014398509481984)%Q
  | -3 => Ok (667199944795629 # 18014398509481984)%Q
  | -4 => Ok (222399981598543 # 18014398509481984)%Q
  | -5 => Ok (2372266470384459 # 576460752303423488)%Q
  | -6 => Ok (6326043921025223 # 4611686018427387904)%Q
  | _ => Ok (3 ^ i)%Q
  end.

(** The float [3.0 ** -5]. *)
Definition p35 : Q := (2372266470384459 # 576460752303423488)%Q.

(** [CoverTree(distance, maxlevel=0, base=3)]; [insert(0.0)];
    [insert(3.0 ** -5)]. *)
Definition base3_ops : list (op Q) := [Insert 0%Q 0%nat; Insert p35 0%nat].

Definition base3_tree : CoverTree Q :=
  default (CoverTree_init 0)
    (run_ops absdist float_pow3 exact_add 50 (CoverTree_init 0) base3_ops).

End Scenario.

(** ** Further concrete cases *)

Module Cases.
Import Scenario.


Definition ops012 : list (op Q) :=
  [Insert 0%Q 0%nat; Insert 1%Q 0%nat; Insert 2%Q 0%nat].


Definition tree012_3 : CoverTree Q :=
  default tree012 (run_op absdist (exact_pow 2) exact_add 50 tree012 (KnnInsert 3%Q 1 0%nat)).

End Cases.

(** ** Facts about [Node] *)

Section NodeFacts.

Context {point : Type}.
Implicit Types (h : list (Node point)) (nd cd : Node point).

Lemma set_children_id nd : set_children nd (children nd) = nd.
Proof. by destruct nd. Qed.

Lemma addChild_eq h self child level nd :
  h !! self = Some nd →
  addChild h self child level =
    let h1 := <[self := set_children nd (children_after nd child level)]> h in
    match h1 !! child with
    | Some cd => <[child := set_parent cd (Some self)]> h1
    | None => h1
    end.
Proof.
  intros Hself. unfold addChild, children_after. rewrite Hself.
  destruct (children nd !! level) as [l|]; [|done].
  case_bool_decide; [|done].
  by rewrite set_children_id, list_insert_id.
Qed.

Lemma getOnlyChildren_set_parent h c cd o q L :
  h !! c = Some cd →
  getOnlyChildren (<[c := set_parent cd o]> h) q L = getOnlyChildren h q L.
Proof.
  intros Hc. unfold getOnlyChildren.
  destruct (decide (q = c)) as [->|Hne].
  - rewrite list_lookup_insert_eq by (by eapply lookup_lt_Some). by rewrite Hc.
  - by rewrite list_lookup_insert_ne.
Qed.

Lemma children_after_lookup nd child level :
  default [] (children_after nd child level !! level) =
    if bool_decide (child ∈ default [] (children nd !! level))
    then default [] (children nd !! level)
    else default [] (children nd !! level) ++ [child].
Proof.
  unfold children_after. destruct (children nd !! level) as [l|] eqn:Hl; simpl.
  - case_bool_decide; [by rewrite Hl|]. by rewrite lookup_insert_eq.
  - rewrite lookup_insert_eq. simpl. done.
Qed.

Lemma children_after_lookup_ne nd child level L :
  L ≠ level → children_after nd child level !! L = children nd !! L.
Proof.
  intros HL. unfold children_after.
  destruct (children nd !! level) as [l|]; [case_bool_decide|]; try done;
    by rewrite lookup_insert_ne.
Qed.

(** C10.  [addChild] sets [child.parent] to the receiver whether or not the
    child was already listed at that level; only the append is skipped for a
    listed child.  Nothing else changes: every other child list (in
    particular the list of a former parent, which keeps the child), every
    other parent reference and all payloads are as before. *)
Theorem addChild_always_reparents h self child level nd cd :
  h !! self = Some nd →
  h !! child = Some cd →
  let h' := addChild h self child level in
  parent <$> h' !! child = Some (Some self)
  ∧ getOnlyChildren h' self level =
      (if bool_decide (child ∈ getOnlyChildren h self level)
       then getOnlyChildren h self level
       else getOnlyChildren h self level ++ [child])
  ∧ (∀ q L, (q, L) ≠ (self, level) →
       getOnlyChildren h' q L = getOnlyChildren h q L)
  ∧ (∀ old L, parent cd = Some old → old ≠ self →
       child ∈ getOnlyChildren h old L → child ∈ getOnlyChildren h' old L)
  ∧ (∀ q, q ≠ child → parent <$> h' !! q = parent <$> h !! q)
  ∧ (∀ q, data <$> h' !! q = data <$> h !! q).
Proof.
  intros Hself Hchild h'. subst h'.
  rewrite (addChild_eq _ _ _ _ _ Hself). cbv zeta.
  set (nd' := set_children nd (children_after nd child level)).
  assert (Hlen : (self < length h)%nat) by (by eapply lookup_lt_Some).
  assert (Hlenc : (child < length h)%nat) by (by eapply lookup_lt_Some).
  assert (∃ cd1, <[self := nd']> h !! child = Some cd1
                 ∧ data cd1 = data cd ∧ children cd1 =
                   (if decide (child = self) then children nd' else children cd))
    as (cd1 & Hcd1 & Hdata1 & Hch1).
  { destruct (decide (child = self)) as [->|Hne].
    - exists nd'. rewrite list_lookup_insert_eq by done.
      split_and!; [done| |done]. simpl. congruence.
    - exists cd. by rewrite list_lookup_insert_ne. }
  rewrite Hcd1.
  assert (Hframe : ∀ q L,
    getOnlyChildren (<[child := set_parent cd1 (Some self)]> (<[self := nd']> h)) q L
    = if decide (q = self) then default [] (children nd' !! L)
      else getOnlyChildren h q L).
  { intros q L. rewrite getOnlyChildren_set_parent by done.
    unfold getOnlyChildren. destruct (decide (q = self)) as [->|Hne].
    - by rewrite list_lookup_insert_eq.
    - by rewrite list_lookup_insert_ne. }
  assert (Hother : ∀ q L, (q, L) ≠ (self, level) →
    getOnlyChildren (<[child := set_parent cd1 (Some self)]> (<[self := nd']> h)) q L
    = getOnlyChildren h q L).
  { intros q L Hne. rewrite Hframe. destruct (decide (q = self)) as [->|]; [|done].
    unfold getOnlyChildren. rewrite Hself. simpl.
    rewrite children_after_lookup_ne; [done|]. congruence. }
  split_and!.
  - rewrite list_lookup_insert_eq; [done|]. by rewrite length_insert.
  - rewrite Hframe. rewrite decide_True by done. simpl.
    rewrite children_after_lookup. unfold getOnlyChildren. by rewrite Hself.
  - done.
  - intros old L _ Hold Hin. rewrite Hother; [done|]. congruence.
  - intros q Hq. rewrite list_lookup_insert_ne by done.
    destruct (decide (q = self)) as [->|Hne].
    + rewrite list_lookup_insert_eq by done. by rewrite Hself.
    + by rewrite list_lookup_insert_ne.
  - intros q. destruct (decide (q = child)) as [->|Hq].
    + rewrite list_lookup_insert_eq by (by rewrite length_insert).
      rewrite Hchild. simpl. by rewrite Hdata1.
    + rewrite list_lookup_insert_ne by done.
      destruct (decide (q = self)) as [->|Hne].
      * rewrite list_lookup_insert_eq by done. by rewrite Hself.
      * by rewrite list_lookup_insert_ne.
Qed.

End NodeFacts.

(** ** Exact arithmetic *)

Section ExactArithmetic.

Variable base : Q.


Lemma exact_pow_pos i : (0 < base)%Q → exact_pow base i = Ok (base ^ i)%Q.
Proof.
  intros Hb. unfold exact_pow.
  destruct (Qeq_bool base 0) eqn:Hz; [|done].
  apply Qeq_bool_eq in Hz. rewrite Hz in Hb. by apply Qlt_irrefl in Hb.
Qed.

Lemma within_lazy_bound_Fin {A : Type} (b : Q) (l : list A) (ds : list Q) :
  within_lazy_bound (Ok (Fin b)) l ds = within_lazy (Ok b) l ds.
Proof. done. Qed.

End ExactArithmetic.

(** ** The covering invariant *)

Section Covering.

Context {point : Type}.
Variable distance : point -> point -> Q.
Variable base_pow : Z -> result Q.
Variable add : Q -> Q -> result bound.
Implicit Types (h : list (Node point)) (t : CoverTree point)
  (nd cd qd : Node point) (Qi : list nat) (ds : list Q).

Local Abbreviation le_pow := (le_pow base_pow).
Local Abbreviation covered := (covered distance base_pow).
Local Abbreviation wf := (wf distance base_pow).
Local Abbreviation cands := (cands distance).
Local Abbreviation found_ok := (found_ok distance base_pow).

Lemma within_map {A : Type} (f : A → Q) (b : Q) (l : list A) :
  within b l (map f l) =
    map (λ q, (q, f q)) (List.filter (λ q, Qle_bool (f q) b) l).
Proof.
  unfold within. induction l as [|x l IH]; [done|]. simpl.
  destruct (Qle_bool (f x) b); simpl; by rewrite IH.
Qed.

Lemma within_fst {A : Type} (f : A → Q) (b : Q) (l : list A) :
  map fst (within b l (map f l)) = List.filter (λ q, Qle_bool (f q) b) l.
Proof.
  rewrite within_map, map_map. simpl. apply map_id.
Qed.

Lemma within_snd{A : Type} (f : A → Q) (b : Q) (l : list A) :
  map snd (within b l (map f l)) = map f (map fst (within b l (map f l))).
Proof. by rewrite within_fst, within_map, map_map. Qed.

Lemma within_lazy_inv {A : Type} (bound : result Q) (l : list A) ds zn :
  within_lazy bound l ds = Ok zn →
  zn = [] ∨ ∃ b, bound = Ok b ∧ zn = within b l ds.
Proof.
  unfold within_lazy. destruct (combine l ds); [left; congruence|].
  destruct bound as [b|]; simpl; [|done].
  intros [= <-]. right. by exists b.
Qed.

Lemma filter_b_elem {A : Type} (f : A → bool) (l : list A) x :
  x ∈ List.filter f l ↔ x ∈ l ∧ f x = true.
Proof. rewrite !list_elem_of_In. apply filter_In. Qed.

Lemma choice_elem {A : Type} (r : nat) (l : list A) x :
  choice r l = Ok x → x ∈ l.
Proof.
  unfold choice. destruct (l !! _) eqn:Hl; [|done].
  intros [= <-]. by eapply list_elem_of_lookup_2.
Qed.

Lemma cands_nil h p : cands h p [] [].
Proof. by split. Qed.

Lemma cands_within h p Qi ds b :
  cands h p Qi ds →
  cands h p (map fst (within b Qi ds)) (map snd (within b Qi ds)).
Proof.
  intros [Hlive ->]. split; [|apply within_snd].
  rewrite within_fst. apply Forall_forall. intros q [Hq _]%filter_b_elem.
  by eapply Forall_forall in Hlive.
Qed.

Lemma cands_within_lazy h p Qi ds bound zn :
  cands h p Qi ds → within_lazy bound Qi ds = Ok zn →
  cands h p (map fst zn) (map snd zn).
Proof.
  intros Hc [->|(b & _ & ->)]%within_lazy_inv;
    [apply cands_nil|by apply cands_within].
Qed.

Lemma within_lazy_bound_inv {A : Type} (bd : result bound) (l : list A) ds zn :
  within_lazy_bound bd l ds = Ok zn →
  zn = [] ∨ (∃ b, bd = Ok (Fin b) ∧ zn = within b l ds)
  ∨ (bd = Ok Inf ∧ zn = combine l ds).
Proof.
  unfold within_lazy_bound. destruct (combine l ds) eqn:Hcomb; [left; congruence|].
  destruct bd as [[b|]|]; simpl; [| |done].
  - intros [= <-]. right. left. by exists b.
  - intros [= <-]. right. by right.
Qed.

Lemma combine_map_fst {A : Type} (f : A → Q) (l : list A) :
  map fst (combine l (map f l)) = l.
Proof. induction l as [|x l IH]; [done|]. simpl. by rewrite IH. Qed.

Lemma combine_map_snd {A : Type} (f : A → Q) (l : list A) :
  map snd (combine l (map f l)) = map f l.
Proof. induction l as [|x l IH]; [done|]. simpl. by rewrite IH. Qed.

Lemma cands_within_lazy_bound h p Qi ds bd zn :
  cands h p Qi ds → within_lazy_bound bd Qi ds = Ok zn →
  cands h p (map fst zn) (map snd zn).
Proof.
  intros Hc [->|[(b & _ & ->)|[_ ->]]]%within_lazy_bound_inv;
    [apply cands_nil|by apply cands_within|].
  destruct Hc as [Hlive ->]. by rewrite combine_map_fst, combine_map_snd.
Qed.

Lemma getOnlyChildren_live h q L c :
  covered h → c ∈ getOnlyChildren h q L → (c < length h)%nat.
Proof.
  intros Hcov. unfold getOnlyChildren.
  destruct (h !! q) as [qd|] eqn:Hq; [|by intros ?%elem_of_nil].
  destruct (children qd !! L) as [l|] eqn:Hl; simpl; [|by intros ?%elem_of_nil].
  intros Hc. destruct (Hcov _ _ _ _ _ Hq Hl Hc) as (cd & Hcd & _).
  by eapply lookup_lt_Some.
Qed.

Lemma cands_getChildrenDist h p Qi ds i :
  covered h → cands h p Qi ds →
  cands h p (getChildrenDist distance h p Qi ds i).1
            (getChildrenDist distance h p Qi ds i).2.
Proof.
  intros Hcov [Hlive ->]. unfold getChildrenDist. simpl. split.
  - apply Forall_app. split; [done|].
    apply Forall_forall. intros c Hc%list_elem_of_In.
    apply in_concat in Hc as (l & Hl & Hc).
    apply in_map_iff in Hl as (q & <- & _).
    apply list_elem_of_In in Hc. by eapply getOnlyChildren_live.
  - by rewrite map_app.
Qed.

(** A parent candidate drawn from [Qi]: a live node within the bound. *)
Lemma choice_within h p Qi ds r b par :
  cands h p Qi ds → choice r (map fst (within b Qi ds)) = Ok par →
  ∃ nd, h !! par = Some nd ∧ (distance p (data nd) <= b)%Q.
Proof.
  intros [Hlive ->] Hpar%choice_elem. rewrite within_fst in Hpar.
  apply filter_b_elem in Hpar as [Hin Hle].
  eapply Forall_forall in Hlive; [|done].
  apply lookup_lt_is_Some_2 in Hlive as [nd Hnd]. exists nd. split; [done|].
  apply Qle_bool_iff. unfold node_dist in Hle. by rewrite Hnd in Hle.
Qed.

Lemma choice_within_lazy h p Qi ds r i zp par :
  cands h p Qi ds → within_lazy (base_pow i) Qi ds = Ok zp →
  choice r (map fst zp) = Ok par →
  ∃ nd, h !! par = Some nd ∧ le_pow (distance p (data nd)) i.
Proof.
  intros Hc [->|(b & Hb & ->)]%within_lazy_inv Hpar.
  - by apply choice_elem, elem_of_nil in Hpar.
  - destruct (choice_within _ _ _ _ _ _ _ Hc Hpar) as (nd & ? & ?).
    exists nd. split; [done|]. by exists b.
Qed.

Lemma children_after_inv nd c L0 L l c' :
  children_after nd c L0 !! L = Some l → c' ∈ l →
  (c' = c ∧ L = L0) ∨ ∃ l0, children nd !! L = Some l0 ∧ c' ∈ l0.
Proof.
  unfold children_after. destruct (children nd !! L0) as [l0|] eqn:H0.
  - case_bool_decide; [by eauto|].
    destruct (decide (L = L0)) as [->|].
    + rewrite lookup_insert_eq.
      intros [= <-] [?| ->%list_elem_of_singleton]%elem_of_app; eauto.
    + rewrite lookup_insert_ne by done. eauto.
  - destruct (decide (L = L0)) as [->|].
    + rewrite lookup_insert_eq. intros [= <-] ->%list_elem_of_singleton. eauto.
    + rewrite lookup_insert_ne by done. eauto.
Qed.

Lemma children_after_mono nd c L0 L l0 c' :
  children nd !! L = Some l0 → c' ∈ l0 →
  ∃ l, children_after nd c L0 !! L = Some l ∧ c' ∈ l.
Proof.
  intros Hl0 Hc. unfold children_after.
  destruct (children nd !! L0) as [l1|] eqn:H1; [case_bool_decide; [by eauto|]|];
    (destruct (decide (L = L0)) as [->|];
     [rewrite lookup_insert_eq|rewrite lookup_insert_ne by done; by eauto]).
  - simplify_eq. eexists; split; [done|]. apply elem_of_app; by left.
  - congruence.
Qed.

Lemma children_after_new nd c L0 :
  ∃ l, children_after nd c L0 !! L0 = Some l ∧ c ∈ l.
Proof.
  unfold children_after. destruct (children nd !! L0) as [l1|] eqn:H1.
  - case_bool_decide; [by eauto|]. rewrite lookup_insert_eq.
    eexists; split; [done|]. apply elem_of_app; right. by apply list_elem_of_singleton.
  - rewrite lookup_insert_eq. eexists; split; [done|].
    by apply list_elem_of_singleton.
Qed.

Lemma attach_heap t par p pi nd :
  heap t !! par = Some nd →
  heap (attach t par p pi) =
    <[length (heap t) := mkNode p ∅ (Some par)]>
      (<[par := set_children nd (children_after nd (length (heap t)) pi)]>
         (heap t ++ [mkNode p ∅ None])).
Proof.
  intros Hpar. unfold attach, Node_init. simpl.
  rewrite (addChild_eq _ _ _ _ nd) by (by apply lookup_app_l_Some).
  cbv zeta.
  assert (par ≠ length (heap t)) by (apply lookup_lt_Some in Hpar; lia).
  rewrite list_lookup_insert_ne by done.
  by rewrite list_lookup_middle.
Qed.

Lemma attach_length t par p pi nd :
  heap t !! par = Some nd →
  length (heap (attach t par p pi)) = S (length (heap t)).
Proof.
  intros Hpar. rewrite (attach_heap _ _ _ _ _ Hpar).
  rewrite !length_insert, length_app. simpl. lia.
Qed.

Lemma attach_lookup t par p pi nd q qd :
  heap t !! par = Some nd →
  heap (attach t par p pi) !! q = Some qd ↔
    (q = length (heap t) ∧ qd = mkNode p ∅ (Some par))
    ∨ (q = par ∧ qd = set_children nd (children_after nd (length (heap t)) pi))
    ∨ (q ≠ par ∧ heap t !! q = Some qd).
Proof.
  intros Hpar. rewrite (attach_heap _ _ _ _ _ Hpar).
  assert (par < length (heap t))%nat by (by eapply lookup_lt_Some).
  rewrite list_lookup_insert_Some, list_lookup_insert_Some, lookup_snoc_Some.
  rewrite !length_insert, !length_app. simpl.
  split.
  - intros [(<- & <- & _)|(Hq & [(<- & <- & _)|(Hne & [[_ Hl]|[-> _]])])];
      [by left|right; by left|right; by right|done].
  - intros [[-> ->]|[[-> ->]|[Hne Hq]]].
    + left. split_and!; [done..|lia].
    + right. split; [lia|]. left. split_and!; [done..|lia].
    + assert (q < length (heap t))%nat by (by eapply lookup_lt_Some).
      right. split; [lia|]. right. split; [done|]. by left.
Qed.

(** Attaching a fresh leaf under a live node that is within
    [self.base ** pi] of the new point keeps the tree well formed. *)
Lemma attach_wf t par p pi nd :
  wf t → heap t !! par = Some nd → le_pow (distance p (data nd)) pi →
  wf (attach t par p pi).
Proof.
  intros (Hcov & Hpl & Hroot) Hpar Hd.
  set (n := length (heap t)).
  set (nd' := set_children nd (children_after nd n pi)).
  assert (Hkeep : ∀ c cd, heap t !! c = Some cd →
    ∃ cd', heap (attach t par p pi) !! c = Some cd'
           ∧ data cd' = data cd ∧ parent cd' = parent cd).
  { intros c cd Hc. destruct (decide (c = par)) as [->|Hne].
    - exists nd'. split; [apply (attach_lookup _ _ _ _ _ _ _ Hpar); right; by left|].
      by simplify_eq.
    - exists cd. split; [|done].
      apply (attach_lookup _ _ _ _ _ _ _ Hpar). right; by right. }
  assert (Hlist : ∀ q qd L l c, heap t !! q = Some qd →
    children qd !! L = Some l → c ∈ l →
    ∃ qd' l', heap (attach t par p pi) !! q = Some qd'
              ∧ children qd' !! L = Some l' ∧ c ∈ l').
  { intros q qd L l c Hq Hl Hc. destruct (decide (q = par)) as [->|Hne].
    - simplify_eq.
      destruct (children_after_mono nd n pi _ _ _ Hl Hc) as (l' & Hl' & Hc').
      exists nd', l'. split; [|done].
      apply (attach_lookup _ _ _ _ _ _ _ Hpar). right; by left.
    - exists qd, l. split; [|done].
      apply (attach_lookup _ _ _ _ _ _ _ Hpar). right; by right. }
  split_and!.
  - intros q qd L l c Hq Hl Hc.
    apply (attach_lookup _ _ _ _ _ _ _ Hpar) in Hq as [[-> ->]|[[-> ->]|[Hne Hq]]].
    + simpl in Hl. by rewrite lookup_empty in Hl.
    + simpl in Hl.
      destruct (children_after_inv _ _ _ _ _ _ Hl Hc) as [[-> ->]|(l0 & Hl0 & Hc0)].
      * exists (mkNode p ∅ (Some par)). split_and!; [|done..].
        apply (attach_lookup _ _ _ _ _ _ _ Hpar). by left.
      * destruct (Hcov _ _ _ _ _ Hpar Hl0 Hc0) as (cd & Hcd & Hcp & Hcd').
        destruct (Hkeep _ _ Hcd) as (cd' & ? & Hdata & Hparent).
        exists cd'. rewrite Hdata, Hparent. by split_and!.
    + destruct (Hcov _ _ _ _ _ Hq Hl Hc) as (cd & Hcd & Hcp & Hcd').
      destruct (Hkeep _ _ Hcd) as (cd' & ? & Hdata & Hparent).
      exists cd'. rewrite Hdata, Hparent. by split_and!.
  - intros c cd q Hc Hp.
    apply (attach_lookup _ _ _ _ _ _ _ Hpar) in Hc as [[-> ->]|[[-> ->]|[Hne Hc]]].
    + simpl in Hp. simplify_eq.
      destruct (children_after_new nd n pi) as (l & Hl & Hin).
      exists nd', pi, l. split; [|done].
      apply (attach_lookup _ _ _ _ _ _ _ Hpar). right; by left.
    + simpl in Hp. destruct (Hpl _ _ _ Hpar Hp) as (qd & L & l & Hq & Hl & Hin).
      destruct (Hlist _ _ _ _ _ Hq Hl Hin) as (qd' & l' & ? & ? & ?).
      by exists qd', L, l'.
    + destruct (Hpl _ _ _ Hc Hp) as (qd & L & l & Hq & Hl & Hin).
      destruct (Hlist _ _ _ _ _ Hq Hl Hin) as (qd' & l' & ? & ? & ?).
      by exists qd', L, l'.
  - intros r Hr. rewrite (attach_length _ _ _ _ _ Hpar).
    specialize (Hroot r Hr). lia.
Qed.

(** Allocating the root of an empty tree. *)
Lemma root_alloc_wf t p :
  wf t →
  wf (mkTree (heap t ++ [mkNode p ∅ None]) (Some (length (heap t)))
        (maxlevel t) (minlevel t)).
Proof.
  intros (Hcov & Hpl & _). split_and!; simpl.
  - intros q qd L l c [[_ Hq]|[-> <-]]%lookup_snoc_Some Hl Hc;
      [|simpl in Hl; by rewrite lookup_empty in Hl].
    destruct (Hcov _ _ _ _ _ Hq Hl Hc) as (cd & Hcd & ?).
    exists cd. split; [by apply lookup_app_l_Some|done].
  - intros c cd q [[_ Hc]|[-> <-]]%lookup_snoc_Some Hp; [|done].
    destruct (Hpl _ _ _ Hc Hp) as (qd & L & l & Hq & ?).
    exists qd, L, l. split; [by apply lookup_app_l_Some|done].
  - intros r [= <-]. rewrite length_app. simpl. lia.
Qed.

Lemma while_inv {St R : Type} (I : St → Prop) (P : result (ctl St R) → Prop)
    (cond : St → bool) (body : St → result (ctl St R)) :
  (∀ s, I s → cond s = false → P (Ok (Next s))) →
  (∀ s, I s → cond s = true →
     match body s with Ok (Next s') => I s' | out => P out end) →
  ∀ fuel s out n, I s → while fuel cond body s = Some (out, n) → P out.
Proof.
  intros Hexit Hbody fuel. induction fuel as [|fuel IH]; [done|].
  intros s out n Hs. simpl. destruct (cond s) eqn:Hc.
  - specialize (Hbody s Hs Hc). destruct (body s) as [[s'|r]|cls].
    + destruct (while fuel cond body s') as [[out' n']|] eqn:Hw; [|done].
      intros [= <- <-]. exact (IH _ _ _ Hbody Hw).
    + by intros [= <- <-].
    + by intros [= <- <-].
  - intros [= <- <-]. by apply Hexit.
Qed.

Lemma insert_body_inv t p r Qi ds i :
  wf t → cands (heap t) p Qi ds →
  match insert_body distance base_pow t p r (Qi, ds, i) with
  | Ok (Next (Qi', ds', _)) => cands (heap t) p Qi' ds'
  | Ok (Return t') => wf t'
  | Raise _ => True
  end.
Proof.
  intros Hwf Hc. unfold insert_body.
  pose proof (cands_getChildrenDist _ p _ _ i (proj1 Hwf) Hc) as HQ.
  destruct (getChildrenDist distance (heap t) p Qi ds i) as [Q_ Q_p_ds].
  simpl in HQ.
  destruct (py_min Q_p_ds) as [d_p_Q|]; simpl; [|done].
  destruct (Qeq_bool d_p_Q 0); [done|].
  destruct (base_pow i) as [b_i|] eqn:Hbi; simpl; [|done].
  destruct (Qgt_bool d_p_Q b_i).
  - destruct (within_lazy (base_pow (i + 1)) Qi ds) as [zp|] eqn:Hzp;
      simpl; [|done].
    destruct (choice r (map fst zp)) as [par|] eqn:Hpar; simpl; [|done].
    destruct (choice_within_lazy _ _ _ _ _ _ _ _ Hc Hzp Hpar) as (nd & ? & ?).
    by eapply attach_wf.
  - rewrite <- Hbi.
    destruct (within_lazy (base_pow i) Q_ Q_p_ds) as [zn|] eqn:Hzn;
      simpl; [|done].
    exact (cands_within_lazy _ _ _ _ _ _ HQ Hzn).
Qed.

Lemma start_cands t p Qi ds :
  wf t → start distance t p = Ok (Qi, ds) → cands (heap t) p Qi ds.
Proof.
  intros (_ & _ & Hroot). unfold start.
  destruct (root t) as [r|]; [|done]. intros [= <- <-].
  split; [|done]. repeat constructor. by apply Hroot.
Qed.

Lemma insert_wf fuel t p r t' n :
  wf t → insert distance base_pow fuel t p r = Some (Ok t', n) → wf t'.
Proof.
  intros Hwf. unfold insert, insert_iter, Node_init.
  destruct (root t) as [rt|] eqn:Hrt.
  - destruct (start distance t p) as [[Qi ds]|] eqn:Hs; [|done].
    pose proof (start_cands _ _ _ _ Hwf Hs) as Hc.
    destruct (while _ _ _ _) as [[out m]|] eqn:Hw; [|done].
    revert Hw. 
    pose proof (while_inv
      (λ s : insert_state, cands (heap t) p s.1.1 s.1.2)
      (λ out, match out with Ok (Return t') => wf t' | _ => True end)
      (λ _, true) (insert_body distance base_pow t p r)) as Hinv.
    intros Hw. eapply Hinv in Hw; [| done | | done].
    + destruct out as [[s'|t'']|]; [|intros [= <- <-]; done|done].
      intros [= <- <-]. done.
    + intros [[Qi' ds'] i'] Hs' _. simpl in Hs'.
      pose proof (insert_body_inv t p r Qi' ds' i' Hwf Hs') as Hb.
      destruct (insert_body _ _ _ _ _ _) as [[[[??]?]|?]|]; done.
  - intros [= <- <-]. by apply root_alloc_wf.
Qed.

Lemma knn_insert_body_inv t p k r Qi ds i found :
  wf t → cands (heap t) p Qi ds → found_ok (heap t) p found →
  match knn_insert_body distance base_pow add t p k r (Qi, ds, i, found) with
  | Ok (Next (Qi', ds', _, found')) =>
    cands (heap t) p Qi' ds' ∧ found_ok (heap t) p found'
  | Ok (Return e) => False
  | Raise _ => True
  end.
Proof.
  intros Hwf Hc Hf. unfold knn_insert_body.
  pose proof (cands_getChildrenDist _ p _ _ i (proj1 Hwf) Hc) as HQ.
  destruct (getChildrenDist distance (heap t) p Qi ds i) as [Q_ Q_p_ds].
  simpl in HQ. cbv zeta.
  destruct (index_last _) as [d_h|]; simpl; [|done].
  destruct (index_first _) as [d_l|]; simpl; [|done].
  assert (Hfound :
    match
      match found with
      | Some _ => Ok found
      | None =>
        b_i <- base_pow i ;;
        if Qgt_bool d_l b_i then
          zp <- within_lazy (base_pow (i + 1)) Qi ds ;;
          par <- choice r (map fst zp) ;; Ok (Some (i + 1, par))
        else Ok None
      end
    with
    | Ok found' => found_ok (heap t) p found'
    | Raise _ => True
    end).
  { destruct found as [[pi par]|]; [done|].
    destruct (base_pow i) as [b_i|]; simpl; [|done].
    destruct (Qgt_bool d_l b_i); [|by intros ??].
    destruct (within_lazy (base_pow (i + 1)) Qi ds) as [zp|] eqn:Hzp;
      simpl; [|done].
    destruct (choice r (map fst zp)) as [par|] eqn:Hpar; simpl; [|done].
    intros pi par' [= <- <-].
    exact (choice_within_lazy _ _ _ _ _ _ _ _ Hc Hzp Hpar). }
  destruct (match found with Some _ => _ | None => _ end) as [found'|];
    simpl; [|done].
  destruct (within_lazy_bound _ Q_ Q_p_ds) as [zn|] eqn:Hzn; simpl; [|done].
  split; [|done]. exact (cands_within_lazy_bound _ _ _ _ _ _ HQ Hzn).
Qed.

Lemma knn_insert_wf fuel t p k r res t' n :
  wf t → knn_insert distance base_pow add fuel t p k r = Some (Ok (res, t'), n) → wf t'.
Proof.
  intros Hwf. unfold knn_insert, knn_insert_iter.
  destruct (start distance t p) as [[Qi ds]|] eqn:Hs; [|done].
  pose proof (start_cands _ _ _ _ Hwf Hs) as Hc.
  destruct (while _ _ _ _) as [[out m]|] eqn:Hw; [|done].
  pose proof (while_inv
    (λ s : knn_insert_state,
       cands (heap t) p s.1.1.1 s.1.1.2 ∧ found_ok (heap t) p s.2)
    (λ out, match out with
            | Ok (Next s) => found_ok (heap t) p s.2
            | Ok (Return e) => False
            | Raise _ => True
            end)
    (knn_insert_cond t) (knn_insert_body distance base_pow add t p k r)) as Hinv.
  eapply Hinv in Hw.
  - destruct out as [[[[[Qi' ds'] i'] found]|[]]|]; [|done].
    destruct found as [[pi par]|]; [|done].
    intros [= <- <- <-]. simpl in Hw.
    destruct (Hw _ _ eq_refl) as (nd & ? & ?). by eapply attach_wf.
  - by intros [[[??]?]?] [_ ?] _.
  - intros [[[Qi' ds'] i'] found] [Hc' Hf'] _. simpl in Hc', Hf'.
    pose proof (knn_insert_body_inv t p k r Qi' ds' i' found Hwf Hc' Hf') as Hb.
    destruct (knn_insert_body _ _ _ _ _ _ _) as [[[[[??]?]?]|?]|]; done.
  - simpl. split; [done|]. by intros ??.
Qed.

Lemma run_op_wf fuel t o t' :
  wf t → run_op distance base_pow add fuel t o = Some t' → wf t'.
Proof.
  intros Hwf. destruct o as [p r|p k r]; simpl.
  - destruct (insert _ _ _ _ _ _) as [[[t''|] n]|] eqn:Hi; [| |done].
    + intros [= <-]. by eapply insert_wf.
    + by intros [= <-].
  - destruct (knn_insert _ _ _ _ _ _ _) as [[[[res t'']|] n]|] eqn:Hi; [| |done].
    + intros [= <-]. by eapply knn_insert_wf.
    + by intros [= <-].
Qed.

Lemma run_ops_wf fuel ops : ∀ t t',
  wf t → run_ops distance base_pow add fuel t ops = Some t' → wf t'.
Proof.
  induction ops as [|o ops IH]; simpl; intros t t' Hwf.
  - by intros [= <-].
  - destruct (run_op _ _ _ _ _) as [t1|] eqn:H1; [|done].
    intros ?. eapply IH; [|done]. by eapply run_op_wf.
Qed.

Lemma init_wf mx : wf (CoverTree_init mx).
Proof.
  split_and!; simpl; [by intros ?????|by intros ???|done].
Qed.

(** *** What [find] does guarantee *)

Lemma py_min_elem l m : py_min l = Ok m → m ∈ l.
Proof.
  destruct l as [|x l]; [done|]. simpl. intros [= <-].
  assert (Hgen : ∀ l' x', fold_left (λ m y, if Qgt_bool m y then y else m) l' x'
                          ∈ x' :: l').
  { induction l' as [|y l' IH]; intros x'; simpl; [apply list_elem_of_here|].
    specialize (IH (if Qgt_bool x' y then y else x')).
    apply elem_of_cons in IH as [->|IH].
    - destruct (Qgt_bool x' y); [apply list_elem_of_further|];
        apply list_elem_of_here.
    - by do 2 apply list_elem_of_further. }
  apply Hgen.
Qed.

(** [find] reports found only if a stored point is at distance zero from
    the query point. *)
Lemma find_found_sound fuel t p i n :
  wf t → find distance base_pow fuel t p = Some (Ok (true, i), n) →
  ∃ q nd, heap t !! q = Some nd ∧ (distance p (data nd) == 0)%Q.
Proof.
  intros Hwf. unfold find.
  destruct (start distance t p) as [[Qi ds]|] eqn:Hs; [|done].
  pose proof (start_cands _ _ _ _ Hwf Hs) as Hc. clear Hs.
  generalize (maxlevel t). revert Qi ds n Hc.
  induction fuel as [|fuel IH]; intros Qi ds n Hc j; [done|].
  cbn [find_rec].
  pose proof (cands_getChildrenDist _ p _ _ j (proj1 Hwf) Hc) as HQ.
  destruct (getChildrenDist distance (heap t) p Qi ds j) as [Q_ Q_p_ds].
  simpl in HQ.
  destruct (within_lazy _ _ _) as [zn|] eqn:Hzn; [|done].
  destruct (py_min ds) as [d|] eqn:Hd; [|done].
  destruct (j <? minlevel t); [done|].
  destruct (Qeq_bool d 0) eqn:Hd0.
  - intros _. apply py_min_elem in Hd. destruct Hc as [Hlive ->].
    apply list_elem_of_fmap in Hd as (q & -> & Hq).
    eapply Forall_forall in Hlive; [|done].
    apply lookup_lt_is_Some_2 in Hlive as [nd Hnd]. exists q, nd.
    split; [done|]. apply Qeq_bool_eq. unfold node_dist in Hd0.
    by rewrite Hnd in Hd0.
  - destruct (find_rec _ _ _ _ _ _ _ _) as [[out m]|] eqn:Hrec; [|done].
    intros [= -> <-]. eapply IH; [|done].
    exact (cands_within_lazy _ _ _ _ _ _ HQ Hzn).
Qed.

Lemma getOnlyChildren_elem h q L c :
  c ∈ getOnlyChildren h q L ↔
  ∃ qd l, h !! q = Some qd ∧ children qd !! L = Some l ∧ c ∈ l.
Proof.
  unfold getOnlyChildren. split.
  - destruct (h !! q) as [qd|]; [|by intros ?%elem_of_nil].
    destruct (children qd !! L) as [l|] eqn:Hl; simpl;
      [|by intros ?%elem_of_nil].
    intros Hc. by exists qd, l.
  - intros (qd & l & -> & -> & ?). done.
Qed.

End Covering.

(** ** Traversals: the empty tree, level counts, the top level *)

Section Traversals.

Context {point : Type}.
Variable distance : point -> point -> Q.
Variable base_pow : Z -> result Q.
Variable add : Q -> Q -> result bound.
Implicit Types (h : list (Node point)) (t : CoverTree point).

(** C5 (as the code has it).  With no root, [knn], [knn_insert] and [find]
    all fail on their first distance computation, [self.root.data] with
    [self.root] being [None]: an [AttributeError], before any level is
    visited. *)
Theorem empty_tree_AttributeError h (mx mn : Z) (p : point) (k : Z)
    (r fuel : nat) :
  knn distance base_pow add (mkTree h None mx mn) p k = (Raise "AttributeError", 0%nat)
  ∧ knn_insert distance base_pow add fuel (mkTree h None mx mn) p k r
    = Some (Raise "AttributeError", 0%nat)
  ∧ find distance base_pow fuel (mkTree h None mx mn) p
    = Some (Raise "AttributeError", 0%nat).
Proof. done. Qed.

Lemma for_each_count {St : Type} (body : Z → St → result St) levels : ∀ s,
  match for_each body levels s with
  | (Ok _, n) => n = length levels
  | (Raise _, n) => (n ≤ length levels)%nat
  end.
Proof.
  induction levels as [|i levels IH]; intros s; simpl; [done|].
  destruct (body i s) as [s'|]; [|lia].
  specialize (IH s'). destruct (for_each body levels s') as [[?|?] n]; lia.
Qed.

Lemma reversed_xrange_length lo hi :
  length (reversed_xrange lo hi) = Z.to_nat (hi - lo).
Proof. unfold reversed_xrange. by rewrite length_rev, length_seqZ. Qed.

Lemma knn_count t p k :
  match knn distance base_pow add t p k with
  | (Ok _, n) => n = Z.to_nat (maxlevel t - minlevel t + 1)
  | (Raise _, n) => (n ≤ Z.to_nat (maxlevel t - minlevel t + 1))%nat
  end.
Proof.
  unfold knn, knn_iter. destruct (start distance t p) as [s|]; [|lia].
  pose proof (for_each_count (knn_body distance base_pow add t p k)
    (reversed_xrange (minlevel t) (maxlevel t + 1)) s) as Hc.
  rewrite reversed_xrange_length in Hc.
  replace (maxlevel t + 1 - minlevel t) with (maxlevel t - minlevel t + 1)
    in Hc by lia.
  by destruct (for_each _ _ _) as [[[??]|?] n].
Qed.

Lemma find_rec_count t p fuel : ∀ Qi ds i,
  match find_rec distance base_pow fuel t p Qi ds i with
  | Some (_, n) => (1 ≤ n ≤ Z.to_nat (i - minlevel t + 1) + 1)%nat
  | None => True
  end.
Proof.
  induction fuel as [|fuel IH]; intros Qi ds i; simpl; [done|].
  destruct (getChildrenDist distance (heap t) p Qi ds i) as [Q_ Q_p_ds].
  destruct (within_lazy _ _ _) as [zn|]; [|lia].
  destruct (py_min ds) as [d|]; [|lia].
  destruct (i <? minlevel t) eqn:Hi; [lia|].
  destruct (Qeq_bool d 0); [lia|].
  specialize (IH (map fst zn) (map snd zn) (i - 1)).
  destruct (find_rec _ _ _ _ _ _ _ _) as [[out n]|]; [|done].
  apply Z.ltb_ge in Hi. lia.
Qed.

Lemma find_rec_returns t p fuel : ∀ Qi ds i,
  (Z.to_nat (i - minlevel t + 1) + 1 ≤ fuel)%nat →
  is_Some (find_rec distance base_pow fuel t p Qi ds i).
Proof.
  induction fuel as [|fuel IH]; intros Qi ds i Hfuel; simpl; [lia|].
  destruct (getChildrenDist distance (heap t) p Qi ds i) as [Q_ Q_p_ds].
  destruct (within_lazy _ _ _) as [zn|]; [|done].
  destruct (py_min ds) as [d|]; [|done].
  destruct (i <? minlevel t) eqn:Hi; [done|].
  destruct (Qeq_bool d 0); [done|].
  apply Z.ltb_ge in Hi.
  destruct (IH (map fst zn) (map snd zn) (i - 1)) as [[out n] ->]; [lia|done].
Qed.

(** *** Where the loops stop *)

Lemma knn_insert_body_level t p k r Qi ds i found s' :
  knn_insert_body distance base_pow add t p k r (Qi, ds, i, found) = Ok (Next s') →
  s'.1.2 = i - 1.
Proof.
  unfold knn_insert_body.
  destruct (getChildrenDist distance (heap t) p Qi ds i) as [Q_ Q_p_ds].
  cbv zeta.
  destruct (index_last _) as [d_h|]; simpl; [|done].
  destruct (index_first _) as [d_l|]; simpl; [|done].
  destruct (match found with Some _ => _ | None => _ end) as [found'|];
    simpl; [|done].
  destruct (within_lazy_bound _ Q_ Q_p_ds) as [zn|]; simpl; [|done].
  by intros [= <-].
Qed.

Lemma knn_insert_loop_count t p k r fuel : ∀ s s' n,
  while fuel (knn_insert_cond t) (knn_insert_body distance base_pow add t p k r) s
    = Some (Ok (Next s'), n) →
  s'.1.2 = s.1.2 - Z.of_nat n ∧ s'.1.2 < minlevel t.
Proof.
  induction fuel as [|fuel IH]; intros s s' n; simpl; [done|].
  destruct (knn_insert_cond t s) eqn:Hcond.
  - destruct s as [[[Qi ds] i] found].
    destruct (knn_insert_body _ _ _ _ _ _ _) as [[s1|[]]|] eqn:Hb; [|done].
    apply knn_insert_body_level in Hb.
    destruct (while fuel _ _ s1) as [[out m]|] eqn:Hw; [|done].
    intros [= -> <-]. destruct (IH _ _ _ Hw) as [Hlev Hlt].
    simpl in *. split; [lia|done].
  - intros [= <- <-]. split; [lia|].
    destruct s as [[[Qi ds] i] found]. simpl in *.
    apply orb_false_iff in Hcond as [_ Hi]. by apply Z.leb_gt in Hi.
Qed.

Lemma knn_insert_count t p k r fuel :
  match knn_insert distance base_pow add fuel t p k r with
  | Some (Ok _, n) => (Z.to_nat (maxlevel t - minlevel t + 1) ≤ n)%nat
  | _ => True
  end.
Proof.
  unfold knn_insert, knn_insert_iter.
  destruct (start distance t p) as [[Qi ds]|]; [|done].
  destruct (while _ _ _ _) as [[[[[[[Qi' ds'] i'] found]|[]]|] n]|] eqn:Hw;
    [|done..].
  apply knn_insert_loop_count in Hw as [Hlev Hlt]. simpl in *.
  destruct found as [[pi par]|]; [lia|done].
Qed.

(** C8 (as the code has it).  [knn] runs its loop body at most
    [maxlevel - minlevel + 1] times, exactly so when it returns normally;
    [find] always ends, by returning or by raising, and enters [find_rec]
    at most one more time than that, so its recursion descends at most
    [maxlevel - minlevel + 1] times.  For [knn_insert] that number is a
    lower bound, not an upper bound: its loop runs at least that often
    whenever it returns normally. *)
Theorem knn_find_levels_bounded t p k r fuel :
  match knn distance base_pow add t p k with
  | (Ok _, n) => n = Z.to_nat (maxlevel t - minlevel t + 1)
  | (Raise _, n) => (n ≤ Z.to_nat (maxlevel t - minlevel t + 1))%nat
  end
  ∧ match find distance base_pow
            (Z.to_nat (maxlevel t - minlevel t + 1) + 1 + fuel) t p with
    | Some (_, n) => (n - 1 ≤ Z.to_nat (maxlevel t - minlevel t + 1))%nat
    | None => False
    end
  ∧ match knn_insert distance base_pow add fuel t p k r with
    | Some (Ok _, n) => (Z.to_nat (maxlevel t - minlevel t + 1) ≤ n)%nat
    | _ => True
    end.
Proof.
  split_and!; [apply knn_count| |apply knn_insert_count].
  unfold find. destruct (start distance t p) as [[Qi ds]|]; [|simpl; lia].
  pose proof (find_rec_count t p
    (Z.to_nat (maxlevel t - minlevel t + 1) + 1 + fuel) Qi ds (maxlevel t)) as Hn.
  destruct (find_rec_returns t p
    (Z.to_nat (maxlevel t - minlevel t + 1) + 1 + fuel) Qi ds (maxlevel t))
    as [[out n] Hr]; [lia|].
  rewrite Hr in Hn |- *. lia.
Qed.

(** *** The top level of [insert] *)

Lemma py_min_above b l :
  l ≠ [] → Forall (λ d, (b < d)%Q) l → ∃ m, py_min l = Ok m ∧ (b < m)%Q.
Proof.
  destruct l as [|x l]; [done|]. intros _ Hall. simpl.
  eexists; split; [done|].
  apply Forall_cons in Hall as [Hx Hl]. revert x Hx.
  induction Hl as [|y l Hy Hl IH]; intros x Hx; simpl; [done|].
  apply IH. by destruct (Qgt_bool x y).
Qed.

Lemma choice_singleton {A : Type} r (x : A) : choice r [x] = Ok x.
Proof. unfold choice. cbn [length]. by rewrite Nat.mod_1_r. Qed.

(** C6 (as the code has it).  There is no check of the level range.  When
    the root and all its children at [maxlevel] are farther than
    [base ** maxlevel] (a number that is not negative) from [p], the first
    iteration decides: an exception raised by [base ** (maxlevel + 1)]
    propagates; otherwise [p] is attached under the root at key
    [maxlevel + 1] if the root is within [base ** (maxlevel + 1)], and if
    not, [choice] is given an empty list and raises [IndexError]. *)
Theorem insert_beyond_maxlevel fuel t p r rt b0 :
  root t = Some rt →
  base_pow (maxlevel t) = Ok b0 →
  (0 <= b0)%Q →
  (b0 < node_dist distance (heap t) p rt)%Q →
  Forall (λ q, (b0 < node_dist distance (heap t) p q)%Q)
    (getOnlyChildren (heap t) rt (maxlevel t)) →
  insert distance base_pow (S fuel) t p r =
    match base_pow (maxlevel t + 1) with
    | Raise cls => Some (Raise cls, 1%nat)
    | Ok b1 =>
      if Qle_bool (node_dist distance (heap t) p rt) b1
      then Some (Ok (attach t rt p (maxlevel t + 1)), 1%nat)
      else Some (Raise "IndexError", 1%nat)
    end.
Proof.
  intros Hroot Hb0 Hpos Hfar Hkids.
  unfold insert, insert_iter, start. rewrite Hroot.
  cbn [while]. unfold insert_body at 1, getChildrenDist.
  cbn [map concat]. rewrite app_nil_r.
  destruct (py_min_above b0
    ([node_dist distance (heap t) p rt]
     ++ map (node_dist distance (heap t) p)
          (getOnlyChildren (heap t) rt (maxlevel t))))
    as (m & -> & Hm).
  { done. }
  { apply Forall_app. split; [by repeat constructor|].
    apply Forall_forall. intros d (q & -> & Hq)%list_elem_of_fmap.
    by eapply Forall_forall in Hkids. }
  cbn [bind].
  destruct (Qeq_bool m 0) eqn:Hm0.
  { apply Qeq_bool_eq in Hm0. rewrite Hm0 in Hm.
    exfalso. exact (Qlt_not_le _ _ Hm Hpos). }
  rewrite Hb0. cbn [bind].
  assert (Qgt_bool m b0 = true) as ->.
  { unfold Qgt_bool. destruct (Qle_bool m _) eqn:Hle; [|done].
    apply Qle_bool_imp_le in Hle. exfalso. exact (Qlt_not_le _ _ Hm Hle). }
  unfold within_lazy, within. cbn [combine].
  destruct (base_pow (maxlevel t + 1)) as [b1|cls]; cbn [bind]; [|done].
  cbn [List.filter snd].
  destruct (Qle_bool _ _); cbn [map fst bind].
  - by rewrite choice_singleton.
  - done.
Qed.

End Traversals.

(** ** Further facts about [Node] *)

Section NodeMore.

Context {point : Type}.
Implicit Types (h : list (Node point)) (nd cd : Node point).

Lemma children_after_idem nd c L :
  children_after (set_children nd (children_after nd c L)) c L
  = children_after nd c L.
Proof.
  unfold children_after at 1. simpl.
  destruct (children_after_new nd c L) as (l & -> & Hc).
  by rewrite bool_decide_eq_true_2.
Qed.

Lemma addChild_children_self h s c L nd :
  h !! s = Some nd →
  getOnlyChildren (addChild h s c L) s L =
    if bool_decide (c ∈ getOnlyChildren h s L)
    then getOnlyChildren h s L
    else getOnlyChildren h s L ++ [c].
Proof.
  intros Hs. rewrite (addChild_eq _ _ _ _ _ Hs). cbv zeta.
  assert (Hlen : (s < length h)%nat) by (by eapply lookup_lt_Some).
  set (h1 := <[s := set_children nd (children_after nd c L)]> h).
  assert (H1 : getOnlyChildren h1 s L =
    if bool_decide (c ∈ getOnlyChildren h s L)
    then getOnlyChildren h s L else getOnlyChildren h s L ++ [c]).
  { unfold getOnlyChildren, h1. rewrite list_lookup_insert_eq by done.
    rewrite Hs. simpl. apply children_after_lookup. }
  destruct (h1 !! c) as [cd|] eqn:Hc; [|done].
  by rewrite getOnlyChildren_set_parent.
Qed.

(** X1.  [addChild] lists the child under the given level, and a child list
    without duplicates stays without duplicates. *)
Theorem addChild_lists_child_once h s c L nd :
  h !! s = Some nd →
  NoDup (getOnlyChildren h s L) →
  c ∈ getOnlyChildren (addChild h s c L) s L
  ∧ NoDup (getOnlyChildren (addChild h s c L) s L).
Proof.
  intros Hs Hnd. rewrite (addChild_children_self _ _ _ _ _ Hs).
  case_bool_decide as Hin; [done|]. split.
  - apply elem_of_app. right. by apply list_elem_of_singleton.
  - apply NoDup_app. split_and!; [done| |apply NoDup_singleton].
    intros x Hx ->%list_elem_of_singleton. done.
Qed.

(** X2.  [addChild] is idempotent: attaching the same child under the same
    node at the same level a second time changes nothing. *)
Theorem addChild_idempotent h s c L nd cd :
  h !! s = Some nd →
  h !! c = Some cd →
  addChild (addChild h s c L) s c L = addChild h s c L.
Proof.
  intros Hs Hc.
  assert (Hls : (s < length h)%nat) by (by eapply lookup_lt_Some).
  assert (Hlc : (c < length h)%nat) by (by eapply lookup_lt_Some).
  rewrite (addChild_eq h _ _ _ _ Hs). cbv zeta.
  set (nd' := set_children nd (children_after nd c L)).
  destruct (decide (c = s)) as [->|Hne].
  - rewrite list_lookup_insert_eq by done.
    rewrite list_insert_insert_eq.
    set (nd2 := set_parent nd' (Some s)).
    assert (H2 : <[s := nd2]> h !! s = Some nd2)
      by (by rewrite list_lookup_insert_eq).
    rewrite (addChild_eq _ _ _ _ _ H2). cbv zeta.
    assert (set_children nd2 (children_after nd2 s L) = nd2) as ->.
    { unfold nd2, nd', set_children, set_parent. simpl. f_equal.
      apply (children_after_idem nd s L). }
    rewrite list_insert_insert_eq, H2, list_insert_insert_eq.
    done.
  - rewrite list_lookup_insert_ne by done. rewrite Hc.
    set (h2 := <[c := set_parent cd (Some s)]> (<[s := nd']> h)).
    assert (H2 : h2 !! s = Some nd').
    { unfold h2. rewrite list_lookup_insert_ne by done.
      by rewrite list_lookup_insert_eq. }
    rewrite (addChild_eq _ _ _ _ _ H2). cbv zeta.
    assert (set_children nd' (children_after nd' c L) = nd') as ->.
    { unfold nd', set_children. simpl. f_equal. apply children_after_idem. }
    rewrite (list_insert_id h2 s nd' H2).
    assert (H2c : h2 !! c = Some (set_parent cd (Some s))).
    { unfold h2. rewrite list_lookup_insert_eq; [done|].
      by rewrite length_insert. }
    rewrite H2c. by apply list_insert_id.
Qed.



Lemma list_remove_snoc x l : x ∉ l → list_remove x (l ++ [x]) = Ok l.
Proof.
  induction l as [|y l IH]; simpl; intros Hx.
  - by rewrite bool_decide_eq_true_2.
  - apply not_elem_of_cons in Hx as [Hxy Hx].
    rewrite bool_decide_eq_false_2 by done. by rewrite IH.
Qed.


(** X4.  Attach, then detach: for a live node [c] without a parent that
    [s] does not list under [L], [addChild(c, L)] on [s] followed by
    [c.removeConnections(L - 1)] succeeds and gives back every child list,
    every parent reference and every payload. *)
Theorem addChild_removeConnections h s c L nd cd :
  h !! s = Some nd →
  h !! c = Some cd →
  c ≠ s →
  parent cd = None →
  c ∉ getOnlyChildren h s L →
  ∃ h', removeConnections (addChild h s c L) c (L - 1) = Ok h'
    ∧ (∀ q L', getOnlyChildren h' q L' = getOnlyChildren h q L')
    ∧ (∀ q, parent <$> h' !! q = parent <$> h !! q)
    ∧ (∀ q, data <$> h' !! q = data <$> h !! q).
Proof.
  intros Hs Hc Hne Hpar Hnin.
  assert (Hls : (s < length h)%nat) by (by eapply lookup_lt_Some).
  assert (Hlc : (c < length h)%nat) by (by eapply lookup_lt_Some).
  set (l0 := default [] (children nd !! L)).
  assert (Hl0 : getOnlyChildren h s L = l0)
    by (unfold getOnlyChildren; by rewrite Hs).
  rewrite Hl0 in Hnin.
  assert (Hafter : children_after nd c L = <[L := l0 ++ [c]]> (children nd)).
  { unfold children_after, l0 in *.
    destruct (children nd !! L) as [l|]; simpl in *; [|done].
    by rewrite bool_decide_eq_false_2. }
  rewrite (addChild_eq h _ _ _ _ Hs). cbv zeta. rewrite Hafter.
  rewrite list_lookup_insert_ne by done. rewrite Hc.
  set (nd' := set_children nd (<[L := l0 ++ [c]]> (children nd))).
  set (h2 := <[c := set_parent cd (Some s)]> (<[s := nd']> h)).
  assert (H2c : h2 !! c = Some (set_parent cd (Some s))).
  { unfold h2. rewrite list_lookup_insert_eq; [done|].
    by rewrite length_insert. }
  assert (H2s : h2 !! s = Some nd').
  { unfold h2. rewrite list_lookup_insert_ne by done.
    by rewrite list_lookup_insert_eq. }
  unfold removeConnections. rewrite H2c. simpl. rewrite H2s. simpl.
  replace (L - 1 + 1) with L by lia.
  rewrite lookup_insert_eq. rewrite list_remove_snoc by done. simpl.
  rewrite insert_insert_eq.
  set (nd3 := set_children nd' (<[L := l0]> (children nd))).
  assert (H3c : <[s := nd3]> h2 !! c = Some (set_parent cd (Some s))).
  { by rewrite list_lookup_insert_ne. }
  rewrite H3c. eexists. split; [done|].
  assert (Hlook : ∀ q,
    <[c := set_parent (set_parent cd (Some s)) None]> (<[s := nd3]> h2) !! q
    = if decide (q = c) then Some (set_parent cd None)
      else if decide (q = s) then Some nd3 else h !! q).
  { intros q. destruct (decide (q = c)) as [->|Hqc].
    - rewrite list_lookup_insert_eq; [done|].
      unfold h2. by rewrite !length_insert.
    - rewrite list_lookup_insert_ne by done.
      destruct (decide (q = s)) as [->|Hqs].
      + rewrite list_lookup_insert_eq; [done|].
        unfold h2. by rewrite !length_insert.
      + rewrite list_lookup_insert_ne by done. unfold h2.
        by rewrite !list_lookup_insert_ne. }
  split_and!.
  - intros q L'. unfold getOnlyChildren. rewrite Hlook.
    destruct (decide (q = c)) as [->|Hqc]; [by rewrite Hc|].
    destruct (decide (q = s)) as [->|Hqs]; [|done].
    rewrite Hs. simpl. destruct (decide (L' = L)) as [->|HL].
    + by rewrite lookup_insert_eq.
    + by rewrite lookup_insert_ne.
  - intros q. rewrite Hlook.
    destruct (decide (q = c)) as [->|Hqc]; [rewrite Hc; simpl; by rewrite Hpar|].
    destruct (decide (q = s)) as [->|Hqs]; [by rewrite Hs|done].
  - intros q. rewrite Hlook.
    destruct (decide (q = c)) as [->|Hqc]; [by rewrite Hc|].
    destruct (decide (q = s)) as [->|Hqs]; [by rewrite Hs|done].
Qed.

End NodeMore.

(** ** Selection: [sorted], [nsmallest], the pruning comprehension *)

Section Selection.

Context {A : Type} (key : A → Q).

Lemma Qle_bool_false x y : Qle_bool x y = false → (y <= x)%Q.
Proof.
  intros H. apply Qlt_le_weak, Qnot_le_lt. intros Hle%Qle_bool_iff.
  congruence.
Qed.

Lemma sorted_by_cons x l :
  sorted_by key (x :: l) = insert_by key x (sorted_by key l).
Proof. done. Qed.

Lemma insert_by_perm x l : insert_by key x l ≡ₚ x :: l.
Proof.
  induction l as [|y l IH]; simpl; [done|].
  destruct (Qle_bool _ _); [done|]. rewrite IH. apply Permutation_swap.
Qed.

Lemma sorted_by_perm l : sorted_by key l ≡ₚ l.
Proof.
  induction l as [|x l IH]; [done|].
  rewrite sorted_by_cons, insert_by_perm. by f_equiv.
Qed.

Lemma sorted_by_length l : length (sorted_by key l) = length l.
Proof. apply Permutation_length, sorted_by_perm. Qed.

Lemma sorted_by_elem x l : x ∈ sorted_by key l ↔ x ∈ l.
Proof. by rewrite sorted_by_perm. Qed.

Lemma insert_by_sorted x l :
  StronglySorted (λ a b, (key a <= key b)%Q) l →
  StronglySorted (λ a b, (key a <= key b)%Q) (insert_by key x l).
Proof.
  induction l as [|y l IH]; simpl; intros Hs; [by repeat constructor|].
  apply StronglySorted_cons in Hs as [Hy Hs].
  destruct (Qle_bool (key x) (key y)) eqn:Hxy.
  - apply Qle_bool_iff in Hxy. apply StronglySorted_cons. split.
    + constructor; [done|]. eapply Forall_impl; [done|].
      intros z Hz. simpl in *. by eapply Qle_trans.
    + by apply StronglySorted_cons.
  - apply Qle_bool_false in Hxy. apply StronglySorted_cons. split; [|auto].
    rewrite insert_by_perm. by constructor.
Qed.

Lemma sorted_by_sorted l :
  StronglySorted (λ a b, (key a <= key b)%Q) (sorted_by key l).
Proof.
  induction l as [|x l IH]; [constructor|].
  rewrite sorted_by_cons. by apply insert_by_sorted.
Qed.






Lemma take_sorted (n : nat) l :
  StronglySorted (λ a b, (key a <= key b)%Q) l →
  StronglySorted (λ a b, (key a <= key b)%Q) (take n l).
Proof.
  intros Hs. rewrite <- (take_drop n l) in Hs.
  by apply StronglySorted_app_1_l in Hs.
Qed.

End Selection.

Lemma insert_by_map {A B : Type} (key : A → Q) (g : B → A) x l :
  insert_by key (g x) (map g l) = map g (insert_by (key ∘ g) x l).
Proof.
  induction l as [|y l IH]; [done|]. simpl.
  destruct (Qle_bool _ _); [done|]. simpl. by rewrite IH.
Qed.

Lemma sorted_by_map {A B : Type} (key : A → Q) (g : B → A) l :
  sorted_by key (map g l) = map g (sorted_by (key ∘ g) l).
Proof.
  induction l as [|x l IH]; [done|].
  simpl map. rewrite !sorted_by_cons, IH. apply insert_by_map.
Qed.

Lemma combine_map_r {A B : Type} (f : A → B) (l : list A) :
  combine l (map f l) = map (λ q, (q, f q)) l.
Proof. induction l as [|x l IH]; [done|]. simpl. by rewrite IH. Qed.


(** ** What the mutating operations do to the tree *)

Section Operations.

Context {point : Type}.
Variable distance : point -> point -> Q.
Variable base_pow : Z -> result Q.
Variable add : Q -> Q -> result bound.
Implicit Types (h : list (Node point)) (t : CoverTree point)
  (nd cd qd : Node point) (Qi : list nat) (ds : list Q).

Local Abbreviation wf := (wf distance base_pow).
Local Abbreviation cands := (cands distance).
Local Abbreviation attached := (attached distance base_pow).

Lemma children_after_cases nd c L0 L l :
  children_after nd c L0 !! L = Some l →
  (L ≠ L0 ∧ children nd !! L = Some l)
  ∨ (L = L0 ∧ children nd !! L0 = Some l ∧ c ∈ l)
  ∨ (L = L0 ∧ l = default [] (children nd !! L0) ++ [c]
     ∧ c ∉ default [] (children nd !! L0)).
Proof.
  unfold children_after. destruct (children nd !! L0) as [l0|] eqn:H0; simpl.
  - case_bool_decide as Hin.
    + intros Hl. destruct (decide (L = L0)) as [->|]; [|by left].
      right; left. by simplify_eq.
    + destruct (decide (L = L0)) as [->|].
      * rewrite lookup_insert_eq. intros [= <-]. right; right. done.
      * rewrite lookup_insert_ne by done. by left.
  - destruct (decide (L = L0)) as [->|].
    + rewrite lookup_insert_eq. intros [= <-]. right; right.
      split_and!; [done..|apply not_elem_of_nil].
    + rewrite lookup_insert_ne by done. by left.
Qed.

Lemma children_after_prefix nd c L0 L :
  default [] (children nd !! L)
  `prefix_of` default [] (children_after nd c L0 !! L).
Proof.
  destruct (decide (L = L0)) as [->|Hne].
  - rewrite children_after_lookup. case_bool_decide; [done|].
    by apply prefix_app_r.
  - by rewrite children_after_lookup_ne.
Qed.

Lemma insert_body_result t p r Qi ds i :
  wf t → cands (heap t) p Qi ds → i ≤ maxlevel t →
  match insert_body distance base_pow t p r (Qi, ds, i) with
  | Ok (Next (Qi', ds', i')) => cands (heap t) p Qi' ds' ∧ i' = i - 1
  | Ok (Return t') => t' = t ∨ attached t p t'
  | Raise _ => True
  end.
Proof.
  intros Hwf Hc Hi. unfold insert_body.
  pose proof (cands_getChildrenDist distance base_pow _ p _ _ i (proj1 Hwf) Hc) as HQ.
  destruct (getChildrenDist distance (heap t) p Qi ds i) as [Q_ Q_p_ds].
  simpl in HQ.
  destruct (py_min Q_p_ds) as [d_p_Q|]; simpl; [|done].
  destruct (Qeq_bool d_p_Q 0); [by left|].
  destruct (base_pow i) as [b_i|] eqn:Hbi; simpl; [|done].
  destruct (Qgt_bool d_p_Q b_i).
  - destruct (within_lazy (base_pow (i + 1)) Qi ds) as [zp|] eqn:Hzp;
      simpl; [|done].
    destruct (choice r (map fst zp)) as [par|] eqn:Hpar; simpl; [|done].
    destruct (choice_within_lazy distance base_pow _ _ _ _ _ _ _ _ Hc Hzp Hpar)
      as (nd & ? & ?).
    right. exists par, nd, (i + 1). split_and!; [done..|lia|done].
  - destruct (within_lazy _ Q_ Q_p_ds) as [zn|] eqn:Hzn; simpl; [|done].
    split; [|done]. exact (cands_within_lazy distance _ _ _ _ _ _ HQ Hzn).
Qed.

(** The three ways in which [insert] returns. *)
Lemma insert_result fuel t p r t' n :
  wf t → insert distance base_pow fuel t p r = Some (Ok t', n) →
  (root t = None
   ∧ t' = mkTree (heap t ++ [mkNode p ∅ None]) (Some (length (heap t)))
            (maxlevel t) (minlevel t))
  ∨ (is_Some (root t) ∧ (t' = t ∨ attached t p t')).
Proof.
  intros Hwf. unfold insert, insert_iter, Node_init.
  destruct (root t) as [rt|] eqn:Hrt.
  - destruct (start distance t p) as [[Qi ds]|] eqn:Hs; [|done].
    pose proof (start_cands distance base_pow _ _ _ _ Hwf Hs) as Hc.
    destruct (while _ _ _ _) as [[out m]|] eqn:Hw; [|done].
    eapply (while_inv
      (λ s : insert_state, cands (heap t) p s.1.1 s.1.2 ∧ s.2 ≤ maxlevel t)
      (λ out, match out with
              | Ok (Return t') => t' = t ∨ attached t p t'
              | _ => True
              end)) in Hw.
    + destruct out as [[s'|t'']|]; [| |done].
      * intros [= <- <-]. right. split; [done|by left].
      * intros [= <- <-]. right. by split.
    + done.
    + intros [[Qi' ds'] i'] [Hs' Hi'] _. simpl in Hs', Hi'.
      pose proof (insert_body_result t p r Qi' ds' i' Hwf Hs' Hi') as Hb.
      destruct (insert_body _ _ _ _ _ _) as [[[[??]?]|?]|]; [|done..].
      simpl. destruct Hb as [? ->]. split; [done|lia].
    + simpl. split; [done|lia].
  - intros [= <- <-]. by left.
Qed.

Lemma knn_insert_body_result t p k r Qi ds i found :
  wf t → cands (heap t) p Qi ds → i ≤ maxlevel t →
  (∀ pi par, found = Some (pi, par) → attached t p (attach t par p pi)) →
  match knn_insert_body distance base_pow add t p k r (Qi, ds, i, found) with
  | Ok (Next (Qi', ds', i', found')) =>
    cands (heap t) p Qi' ds' ∧ i' = i - 1
    ∧ (∀ pi par, found' = Some (pi, par) → attached t p (attach t par p pi))
  | Ok (Return e) => False
  | Raise _ => True
  end.
Proof.
  intros Hwf Hc Hi Hf. unfold knn_insert_body.
  pose proof (cands_getChildrenDist distance base_pow _ p _ _ i (proj1 Hwf) Hc) as HQ.
  destruct (getChildrenDist distance (heap t) p Qi ds i) as [Q_ Q_p_ds].
  simpl in HQ. cbv zeta.
  destruct (index_last _) as [d_h|]; simpl; [|done].
  destruct (index_first _) as [d_l|]; simpl; [|done].
  assert (Hfound :
    match
      match found with
      | Some _ => Ok found
      | None =>
        b_i <- base_pow i ;;
        if Qgt_bool d_l b_i then
          zp <- within_lazy (base_pow (i + 1)) Qi ds ;;
          par <- choice r (map fst zp) ;; Ok (Some (i + 1, par))
        else Ok None
      end
    with
    | Ok found' =>
      ∀ pi par, found' = Some (pi, par) → attached t p (attach t par p pi)
    | Raise _ => True
    end).
  { destruct found as [[pi par]|]; [done|].
    destruct (base_pow i) as [b_i|]; simpl; [|done].
    destruct (Qgt_bool d_l b_i); [|by intros ??].
    destruct (within_lazy (base_pow (i + 1)) Qi ds) as [zp|] eqn:Hzp;
      simpl; [|done].
    destruct (choice r (map fst zp)) as [par|] eqn:Hpar; simpl; [|done].
    intros pi par' [= <- <-].
    destruct (choice_within_lazy distance base_pow _ _ _ _ _ _ _ _ Hc Hzp Hpar)
      as (nd & ? & ?).
    exists par, nd, (i + 1). split_and!; [done..|lia|done]. }
  destruct (match found with Some _ => _ | None => _ end) as [found'|];
    simpl; [|done].
  destruct (within_lazy_bound _ Q_ Q_p_ds) as [zn|] eqn:Hzn; simpl; [|done].
  split_and!; [|done..].
  exact (cands_within_lazy_bound distance _ _ _ _ _ _ HQ Hzn).
Qed.

(** [knn_insert], when it returns, has attached a leaf for [p]. *)
Lemma knn_insert_result fuel t p k r res t' n :
  wf t → knn_insert distance base_pow add fuel t p k r = Some (Ok (res, t'), n) →
  attached t p t'.
Proof.
  intros Hwf. unfold knn_insert, knn_insert_iter.
  destruct (start distance t p) as [[Qi ds]|] eqn:Hs; [|done].
  pose proof (start_cands distance base_pow _ _ _ _ Hwf Hs) as Hc.
  destruct (while _ _ _ _) as [[out m]|] eqn:Hw; [|done].
  eapply (while_inv
    (λ s : knn_insert_state,
       cands (heap t) p s.1.1.1 s.1.1.2 ∧ s.1.2 ≤ maxlevel t
       ∧ ∀ pi par, s.2 = Some (pi, par) → attached t p (attach t par p pi))
    (λ out, match out with
            | Ok (Next s) =>
              ∀ pi par, s.2 = Some (pi, par) →
                        attached t p (attach t par p pi)
            | Ok (Return e) => False
            | Raise _ => True
            end)) in Hw.
  - destruct out as [[[[[Qi' ds'] i'] found]|[]]|]; [|done].
    destruct found as [[pi par]|]; [|done].
    intros [= <- <- <-]. by apply Hw.
  - by intros [[[??]?]?] (_ & _ & ?) _.
  - intros [[[Qi' ds'] i'] found] (Hc' & Hi' & Hf') _. simpl in Hc', Hi', Hf'.
    pose proof (knn_insert_body_result t p k r Qi' ds' i' found
                  Hwf Hc' Hi' Hf') as Hb.
    destruct (knn_insert_body _ _ _ _ _ _ _) as [[[[[??]?]?]|?]|]; [|done..].
    simpl. destruct Hb as (? & -> & ?). split_and!; [done|lia|done].
  - simpl. split_and!; [done|lia|]. by intros ??.
Qed.

Lemma attached_wf t p t' : wf t → attached t p t' → wf t'.
Proof.
  intros Hwf (par & nd & pi & -> & Hpar & _ & Hd).
  by eapply attach_wf.
Qed.

Lemma attached_fields t p t' :
  attached t p t' →
  maxlevel t' = maxlevel t ∧ root t' = root t
  ∧ minlevel t' ≤ minlevel t ∧ minlevel t' ≤ maxlevel t + 1
  ∧ length (heap t') = S (length (heap t))
  ∧ points t' = points t ++ [p].
Proof.
  intros (par & nd & pi & -> & Hpar & Hpi & _).
  split_and!; [done|done|simpl; lia|simpl; lia| |].
  - by eapply attach_length.
  - unfold points. rewrite (attach_heap _ _ _ _ _ Hpar).
    assert (par < length (heap t))%nat by (by eapply lookup_lt_Some).
    change (map data ?l) with (data <$> l).
    rewrite !list_fmap_insert, fmap_app. simpl.
    rewrite (list_insert_id _ par).
    + apply list_eq. intros j.
      rewrite list_lookup_insert. case_decide as Hj.
      * destruct Hj as [<- _]. rewrite lookup_app_r; rewrite length_fmap; [|lia].
        by rewrite Nat.sub_diag.
      * destruct (decide (j = length (heap t))) as [->|]; [|done].
        exfalso. apply Hj. split; [done|].
        rewrite length_app, length_fmap. simpl. lia.
    + rewrite lookup_app_l by (rewrite length_fmap; lia).
      by rewrite list_lookup_fmap, Hpar.
Qed.

(** Nothing that was in the store is deleted, moved or rewritten. *)
Lemma attached_keeps t p t' q nd :
  attached t p t' → heap t !! q = Some nd →
  ∃ nd', heap t' !! q = Some nd' ∧ data nd' = data nd
         ∧ parent nd' = parent nd
         ∧ ∀ L, default [] (children nd !! L)
                `prefix_of` default [] (children nd' !! L).
Proof.
  intros (par & nd0 & pi & -> & Hpar & _ & _) Hq.
  destruct (decide (q = par)) as [->|Hne].
  - simplify_eq. eexists. split.
    + apply (attach_lookup _ _ _ _ _ _ _ Hpar). right; by left.
    + split_and!; [done..|]. intros L. apply children_after_prefix.
  - exists nd. split; [|done].
    apply (attach_lookup _ _ _ _ _ _ _ Hpar). right; by right.
Qed.

Lemma attached_levels_ok t p t' :
  wf t → levels_ok t → attached t p t' → levels_ok t'.
Proof.
  intros (Hcov & _ & Hroot) (Hmm & Hrt & Hkeys) Hatt.
  destruct (attached_fields _ _ _ Hatt) as (Hmx & Hr & Hmn & Hmn' & Hlen & _).
  destruct Hatt as (par & nd & pi & -> & Hpar & Hpi & _).
  split_and!.
  - simpl in *. lia.
  - rewrite Hr. destruct (root t) as [r|]; [|by rewrite Hrt in Hpar].
    destruct Hrt as [-> Hne]. split; [done|].
    intros Hnil. by rewrite Hnil in Hlen.
  - intros q qd L l Hq Hl.
    apply (attach_lookup _ _ _ _ _ _ _ Hpar) in Hq as [[-> ->]|[[-> ->]|[Hne Hq]]].
    + simpl in Hl. by rewrite lookup_empty in Hl.
    + simpl in Hl. simpl minlevel. simpl maxlevel.
      apply children_after_cases in Hl
        as [[HL Hl]|[(-> & Hl & _)|(-> & -> & Hfresh)]].
      * destruct (Hkeys _ _ _ _ Hpar Hl). split; [lia|done].
      * destruct (Hkeys _ _ _ _ Hpar Hl). split; [lia|done].
      * split; [lia|]. apply NoDup_app. split_and!.
        -- destruct (children nd !! pi) as [l0|] eqn:Hl0; simpl;
             [|apply NoDup_nil_2].
           by destruct (Hkeys _ _ _ _ Hpar Hl0).
        -- intros x Hx ->%list_elem_of_singleton. done.
        -- apply NoDup_singleton.
    + destruct (Hkeys _ _ _ _ Hq Hl). simpl. split; [lia|done].
Qed.

Lemma root_alloc_levels_ok t p :
  levels_ok t → root t = None →
  levels_ok (mkTree (heap t ++ [mkNode p ∅ None]) (Some (length (heap t)))
               (maxlevel t) (minlevel t)).
Proof.
  intros (Hmm & Hrt & Hkeys) Hnone. rewrite Hnone in Hrt.
  split_and!; simpl; [done|by rewrite Hrt|].
  rewrite Hrt. intros q qd L l [[? Hq]|[-> <-]]%lookup_snoc_Some Hl; [done|].
  simpl in Hl. by rewrite lookup_empty in Hl.
Qed.

(** The tree an operation leaves behind: the tree as it was, the tree with
    a new root, or the tree with a new leaf. *)
Lemma run_op_result fuel t o t' :
  wf t → run_op distance base_pow add fuel t o = Some t' →
  t' = t
  ∨ (root t = None
     ∧ t' = mkTree (heap t ++ [mkNode (op_point o) ∅ None])
              (Some (length (heap t))) (maxlevel t) (minlevel t))
  ∨ attached t (op_point o) t'.
Proof.
  intros Hwf. destruct o as [p r|p k r]; simpl.
  - destruct (insert _ _ _ _ _ _) as [[[t''|] n]|] eqn:Hi; [| |done].
    + intros [= <-].
      destruct (insert_result _ _ _ _ _ _ Hwf Hi) as [[? ->]|[_ [->|?]]];
        auto.
    + intros [= <-]. by left.
  - destruct (knn_insert _ _ _ _ _ _ _) as [[[[res t'']|] n]|] eqn:Hi;
      [| |done].
    + intros [= <-]. right; right. by eapply knn_insert_result.
    + intros [= <-]. by left.
Qed.

Lemma run_op_levels_ok fuel t o t' :
  wf t → levels_ok t → run_op distance base_pow add fuel t o = Some t' → levels_ok t'.
Proof.
  intros Hwf Hl Hop.
  destruct (run_op_result _ _ _ _ Hwf Hop) as [->|[[Hnone ->]|Hatt]].
  - done.
  - by apply root_alloc_levels_ok.
  - by eapply attached_levels_ok.
Qed.

Lemma run_ops_built fuel ops : ∀ t t',
  wf t → levels_ok t → run_ops distance base_pow add fuel t ops = Some t' →
  wf t' ∧ levels_ok t' ∧ maxlevel t' = maxlevel t
  ∧ (length (heap t') ≤ length (heap t) + length ops)%nat.
Proof.
  induction ops as [|o ops IH]; simpl; intros t t' Hwf Hl.
  - intros [= <-]. split_and!; [done..|lia].
  - destruct (run_op _ _ _ _ _) as [t1|] eqn:H1; [|done]. intros Hrun.
    pose proof (run_op_wf distance base_pow add _ _ _ _ Hwf H1) as Hwf1.
    pose proof (run_op_levels_ok _ _ _ _ Hwf Hl H1) as Hl1.
    destruct (IH _ _ Hwf1 Hl1 Hrun) as (? & ? & Hmx & Hlen).
    split_and!; [done..| |].
    + rewrite Hmx.
      destruct (run_op_result _ _ _ _ Hwf H1) as [->|[[_ ->]|Hatt]];
        [done..|]. by destruct (attached_fields _ _ _ Hatt) as (-> & _).
    + assert (length (heap t1) ≤ S (length (heap t)))%nat; [|lia].
      destruct (run_op_result _ _ _ _ Hwf H1) as [->|[[_ ->]|Hatt]].
      * lia.
      * simpl. rewrite length_app. simpl. lia.
      * destruct (attached_fields _ _ _ Hatt) as (_ & _ & _ & _ & -> & _).
        lia.
Qed.

Lemma init_levels_ok mx : levels_ok (CoverTree_init (point:=point) mx).
Proof.
  split_and!; simpl; [lia|done|]. by intros ???? ?.
Qed.

(** *** Where the nodes hang *)

Lemma attach_getOnlyChildren t par p pi nd q L c :
  heap t !! par = Some nd →
  c ∈ getOnlyChildren (heap (attach t par p pi)) q L ↔
    c ∈ getOnlyChildren (heap t) q L
    ∨ (q = par ∧ L = pi ∧ c = length (heap t)).
Proof.
  intros Hpar. rewrite !getOnlyChildren_elem. split.
  - intros (qd & l & Hq & Hl & Hc).
    apply (attach_lookup _ _ _ _ _ _ _ Hpar) in Hq as [[-> ->]|[[-> ->]|[Hne Hq]]].
    + simpl in Hl. by rewrite lookup_empty in Hl.
    + simpl in Hl.
      destruct (children_after_inv _ _ _ _ _ _ Hl Hc) as [[-> ->]|(l0 & Hl0 & Hc0)].
      * by right.
      * left. by exists nd, l0.
    + left. by exists qd, l.
  - intros [(qd & l & Hq & Hl & Hc)|(-> & -> & ->)].
    + destruct (decide (q = par)) as [->|Hne].
      * simplify_eq.
        destruct (children_after_mono nd (length (heap t)) pi _ _ _ Hl Hc)
          as (l' & Hl' & Hc').
        eexists _, l'.
        split; [apply (attach_lookup _ _ _ _ _ _ _ Hpar); right; by left|].
        done.
      * exists qd, l. split; [|done].
        apply (attach_lookup _ _ _ _ _ _ _ Hpar). right; by right.
    + destruct (children_after_new nd (length (heap t)) pi) as (l & Hl & Hin).
      eexists _, l.
      split; [apply (attach_lookup _ _ _ _ _ _ _ Hpar); right; by left|].
      done.
Qed.

Lemma attached_placed t p t' :
  wf t → levels_ok t → placed t → attached t p t' → placed t'.
Proof.
  intros Hwf (_ & Hrt & _) [Hrootp Hpl] (par & nd & pi & -> & Hpar & _ & _).
  pose proof Hwf as (Hcov & _ & Hroot).
  assert (Hparlt : (par < length (heap t))%nat) by (by eapply lookup_lt_Some).
  assert (Hfresh : ∀ q L, length (heap t) ∉ getOnlyChildren (heap t) q L).
  { intros q L Hin.
    pose proof (getOnlyChildren_live distance base_pow _ _ _ _ Hcov Hin). lia. }
  assert (Hback : ∀ n nd', heap (attach t par p pi) !! n = Some nd' →
    (n = length (heap t) ∧ parent nd' = Some par)
    ∨ ((n < length (heap t))%nat
       ∧ ∃ nd0, heap t !! n = Some nd0 ∧ parent nd' = parent nd0)).
  { intros n nd' Hn.
    apply (attach_lookup _ _ _ _ _ _ _ Hpar) in Hn as [[-> ->]|[[-> ->]|[Hne Hn]]].
    - by left.
    - right. split; [done|]. by exists nd.
    - right. split; [by eapply lookup_lt_Some|]. by exists nd'. }
  split.
  - intros r nd' Hr Hn. change (root (attach t par p pi)) with (root t) in Hr.
    specialize (Hroot r Hr).
    destruct (Hback _ _ Hn) as [[-> _]|[_ (nd0 & Hn0 & ->)]]; [lia|].
    by eapply Hrootp.
  - intros n nd' Hn Hnr. change (root (attach t par p pi)) with (root t) in Hnr.
    destruct (Hback _ _ Hn) as [[-> Hp]|[Hlt (nd0 & Hn0 & Hp)]].
    + exists par, pi. split_and!; [done| |].
      * apply (attach_getOnlyChildren _ _ _ _ _ _ _ _ Hpar). by right.
      * intros q' L' [Hin|(-> & -> & _)]%(attach_getOnlyChildren _ _ _ _ _ _ _ _ Hpar);
          [by apply Hfresh in Hin|done].
    + destruct (Hpl _ _ Hn0 Hnr) as (q & L & Hq & Hin & Huniq).
      exists q, L. split_and!; [by rewrite Hp| |].
      * apply (attach_getOnlyChildren _ _ _ _ _ _ _ _ Hpar). by left.
      * intros q' L' [Hin'|(_ & _ & ->)]%(attach_getOnlyChildren _ _ _ _ _ _ _ _ Hpar);
          [by apply Huniq|lia].
Qed.

Lemma root_alloc_placed t p :
  levels_ok t → root t = None →
  placed (mkTree (heap t ++ [mkNode p ∅ None]) (Some (length (heap t)))
            (maxlevel t) (minlevel t)).
Proof.
  intros (_ & Hrt & _) Hnone. rewrite Hnone in Hrt. rewrite Hrt. simpl.
  split; simpl.
  - intros r nd [= <-]. by intros [= <-].
  - intros [|n] nd Hn Hnr; [done|]. done.
Qed.

Lemma run_ops_placed fuel ops : ∀ t t',
  wf t → levels_ok t → placed t →
  run_ops distance base_pow add fuel t ops = Some t' → placed t'.
Proof.
  induction ops as [|o ops IH]; simpl; intros t t' Hwf Hl Hp.
  - by intros [= <-].
  - destruct (run_op _ _ _ _ _) as [t1|] eqn:H1; [|done]. intros Hrun.
    pose proof (run_op_wf distance base_pow add _ _ _ _ Hwf H1) as Hwf1.
    pose proof (run_op_levels_ok _ _ _ _ Hwf Hl H1) as Hl1.
    eapply IH; [exact Hwf1|exact Hl1| |exact Hrun].
    destruct (run_op_result _ _ _ _ Hwf H1) as [->|[[Hnone ->]|Hatt]].
    + done.
    + by apply root_alloc_placed.
    + exact (attached_placed _ _ _ Hwf Hl Hp Hatt).
Qed.

Lemma init_placed mx : placed (CoverTree_init (point:=point) mx).
Proof. split; simpl; [done|]. by intros n nd ?. Qed.

(** C4 (as the code has it).  After every sequence of [insert] and
    [knn_insert] calls on a new tree: the root has no parent and no node
    lists it; every other node [n] has a parent, which lists it, under one
    key [L] only ([n] was attached at level [L - 1]), and no other node
    lists it; the power [base ** L] evaluates to a number, and
    the distance from [n] to its parent is at most that number. *)
Theorem covering_invariant fuel mx ops t :
  run_ops distance base_pow add fuel (CoverTree_init mx) ops = Some t →
  (∀ r nd, root t = Some r → heap t !! r = Some nd →
     parent nd = None ∧ ∀ q L, r ∉ getOnlyChildren (heap t) q L)
  ∧ (∀ n nd, heap t !! n = Some nd → root t ≠ Some n →
       ∃ q qd L b,
         parent nd = Some q ∧ heap t !! q = Some qd
         ∧ n ∈ getOnlyChildren (heap t) q L
         ∧ (∀ q' L', n ∈ getOnlyChildren (heap t) q' L' → q' = q ∧ L' = L)
         ∧ base_pow L = Ok b
         ∧ (distance (data nd) (data qd) <= b)%Q).
Proof.
  intros Hrun.
  destruct (run_ops_built _ _ _ _ (init_wf distance base_pow mx)
              (init_levels_ok mx) Hrun) as (Hwf & _).
  pose proof (run_ops_placed _ _ _ _ (init_wf distance base_pow mx)
                (init_levels_ok mx) (init_placed mx) Hrun) as [Hrootp Hpl].
  destruct Hwf as (Hcov & _ & _).
  split.
  - intros r nd Hr Hn. split; [by eapply Hrootp|].
    intros q L (qd & l & Hq & Hl & Hin)%getOnlyChildren_elem.
    destruct (Hcov _ _ _ _ _ Hq Hl Hin) as (cd & Hcd & Hp & _).
    simplify_eq. by rewrite (Hrootp _ _ Hr Hn) in Hp.
  - intros n nd Hn Hnr.
    destruct (Hpl _ _ Hn Hnr) as (q & L & Hp & Hin & Huniq).
    pose proof Hin as (qd & l & Hq & Hl & Hin')%getOnlyChildren_elem.
    destruct (Hcov _ _ _ _ _ Hq Hl Hin') as (cd & Hcd & _ & b & Hb & Hle).
    simplify_eq. by exists q, qd, L, b.
Qed.

(** X5.  However a tree is built from a new one by [insert] and
    [knn_insert] calls: [maxlevel] keeps the value given at construction and
    [minlevel] never exceeds it; the store holds at most one node per call;
    the root, once there, is the first node allocated; children are only
    listed under keys from [minlevel] to [maxlevel + 1]; and no child list
    holds a node twice. *)
Theorem built_tree_bookkeeping fuel mx ops t :
  run_ops distance base_pow add fuel (CoverTree_init mx) ops = Some t →
  maxlevel t = mx
  ∧ minlevel t ≤ mx
  ∧ (length (heap t) ≤ length ops)%nat
  ∧ match root t with
    | None => heap t = []
    | Some r => r = 0%nat ∧ heap t ≠ []
    end
  ∧ (∀ q L c, c ∈ getOnlyChildren (heap t) q L → minlevel t ≤ L ≤ mx + 1)
  ∧ (∀ q L, NoDup (getOnlyChildren (heap t) q L)).
Proof.
  intros Hrun.
  destruct (run_ops_built _ _ _ _ (init_wf distance base_pow mx)
              (init_levels_ok mx) Hrun)
    as (_ & (Hmm & Hrt & Hkeys) & Hmx & Hlen).
  simpl in Hmx, Hlen. rewrite Hmx in *.
  split_and!; [done..| |].
  - intros q L c (qd & l & Hq & Hl & _)%getOnlyChildren_elem.
    by destruct (Hkeys _ _ _ _ Hq Hl).
  - intros q L. unfold getOnlyChildren.
    destruct (heap t !! q) as [qd|] eqn:Hq; [|apply NoDup_nil_2].
    destruct (children qd !! L) as [l|] eqn:Hl; simpl; [|apply NoDup_nil_2].
    by destruct (Hkeys _ _ _ _ Hq Hl).
Qed.

(** X6.  One more call on a built tree only appends: the stored points are
    the old ones, followed by the point of the call if a node was created;
    every node that was there keeps its payload and its parent, and each of
    its child lists keeps its old entries as a prefix. *)
Theorem operations_only_append fuel fuel' mx ops t o t' :
  run_ops distance base_pow add fuel (CoverTree_init mx) ops = Some t →
  run_op distance base_pow add fuel' t o = Some t' →
  (points t' = points t ∨ points t' = points t ++ [op_point o])
  ∧ ∀ q nd, heap t !! q = Some nd →
      ∃ nd', heap t' !! q = Some nd' ∧ data nd' = data nd
             ∧ parent nd' = parent nd
             ∧ ∀ L, getOnlyChildren (heap t) q L
                    `prefix_of` getOnlyChildren (heap t') q L.
Proof.
  intros Hrun Hop.
  destruct (run_ops_built _ _ _ _ (init_wf distance base_pow mx)
              (init_levels_ok mx) Hrun) as (Hwf & _).
  destruct (run_op_result _ _ _ _ Hwf Hop) as [->|[[Hnone ->]|Hatt]].
  - split; [by left|]. intros q nd Hq. by exists nd.
  - split.
    + right. unfold points. simpl. by rewrite map_app.
    + intros q nd Hq. exists nd. simpl.
      split_and!; [by apply lookup_app_l_Some|done..|].
      intros L. unfold getOnlyChildren.
      by rewrite (lookup_app_l_Some _ _ _ _ Hq), Hq.
  - split.
    + right. by destruct (attached_fields _ _ _ Hatt) as (_&_&_&_&_&?).
    + intros q nd Hq.
      destruct (attached_keeps _ _ _ _ _ Hatt Hq) as (nd' & Hq' & ? & ? & Hpre).
      exists nd'. split_and!; [done..|]. intros L.
      unfold getOnlyChildren. rewrite Hq, Hq'. apply Hpre.
Qed.

End Operations.

(** ** What the queries return *)

Section Queries.

Context {point : Type}.
Variable distance : point -> point -> Q.
Variable base_pow : Z -> result Q.
Variable add : Q -> Q -> result bound.
Implicit Types (h : list (Node point)) (t : CoverTree point)
  (nd cd qd : Node point) (Qi : list nat) (ds : list Q).

Local Abbreviation wf := (wf distance base_pow).
Local Abbreviation cands := (cands distance).


Lemma reversed_xrange_cons lo i :
  lo ≤ i → reversed_xrange lo (i + 1) = i :: reversed_xrange lo i.
Proof.
  intros H. unfold reversed_xrange.
  replace (i + 1 - lo) with (Z.of_nat (S (Z.to_nat (i - lo)))) by lia.
  rewrite seqZ_S, rev_app_distr. simpl.
  f_equal; [lia|]. f_equal. f_equal. lia.
Qed.




Lemma getChildrenDist_aligned h p Qi i :
  (getChildrenDist distance h p Qi (map (node_dist distance h p) Qi) i).2
  = map (node_dist distance h p)
      (getChildrenDist distance h p Qi (map (node_dist distance h p) Qi) i).1.
Proof. unfold getChildrenDist. simpl. by rewrite map_app. Qed.

Lemma within_nonempty {A : Type} (f : A → Q) b (l : list A) q :
  q ∈ l → (f q <= b)%Q → map fst (within b l (map f l)) ≠ [].
Proof.
  intros Hq Hle. rewrite within_fst. intros Hnil.
  assert (q ∈ List.filter (λ q, Qle_bool (f q) b) l) as Hin.
  { apply filter_b_elem. split; [done|]. by apply Qle_bool_iff. }
  rewrite Hnil in Hin. by apply elem_of_nil in Hin.
Qed.

Lemma within_lazy_Ok {A : Type} (f : A → Q) b (l : list A) :
  within_lazy (Ok b) l (map f l) = Ok (within b l (map f l)).
Proof.
  unfold within_lazy. rewrite combine_map_r. by destruct l.
Qed.

Lemma choice_nonempty {A : Type} r (l : list A) :
  l ≠ [] → ∃ x, choice r l = Ok x.
Proof.
  intros Hl. unfold choice.
  destruct (lookup_lt_is_Some_2 l (r mod length l)) as [x ->]; [|by exists x].
  apply Nat.mod_upper_bound. by destruct l.
Qed.

Lemma py_min_le_head x l m : py_min (x :: l) = Ok m → (m <= x)%Q.
Proof.
  simpl. intros [= <-]. revert x.
  induction l as [|y l IH]; intros x; simpl; [apply Qle_refl|].
  unfold Qgt_bool at 2. destruct (Qle_bool x y) eqn:Hxy; simpl; [apply IH|].
  eapply Qle_trans; [apply IH|]. by apply Qle_bool_false.
Qed.

(** *** [args_min] *)

Lemma list_omap_map {A B C : Type} (g : A → B) (f : B → option C) l :
  omap f (map g l) = omap (f ∘ g) l.
Proof.
  induction l as [|x l IH]; [done|]. simpl.
  destruct (f (g x)); [f_equal|]; apply IH.
Qed.

Lemma args_min_aligned h p Qi k :
  args_min h Qi (map (node_dist distance h p) Qi) k =
    omap (node_data h)
      (take (Z.to_nat k) (sorted_by (node_dist distance h p) Qi)).
Proof.
  unfold args_min, nsmallest. rewrite combine_map_r.
  rewrite (sorted_by_map snd (λ q, (q, node_dist distance h p q))).
  change (snd ∘ _) with (node_dist distance h p).
  change (map ?g ?l) with (g <$> l). rewrite <- fmap_take.
  change (?g <$> ?l) with (map g l). by rewrite list_omap_map.
Qed.

Lemma omap_node_data_live h p l :
  Forall (λ q, is_Some (h !! q)) l →
  ∃ res, omap (node_data h) l = res ∧ length res = length l
         ∧ map (distance p) res = map (node_dist distance h p) l
         ∧ ∀ x, x ∈ res → ∃ q, q ∈ l ∧ node_data h q = Some x.
Proof.
  induction 1 as [|q l [nd Hq] Hl (res & Hres & Hlen & Hd & Hin)].
  - exists []. split_and!; [done..|]. by intros x ?%elem_of_nil.
  - exists (data nd :: res). split_and!.
    + simpl. unfold node_data at 1. rewrite Hq. simpl. f_equal. exact Hres.
    + simpl. by rewrite Hlen.
    + simpl. rewrite Hd. unfold node_dist at 2. by rewrite Hq.
    + intros x [->|Hx]%elem_of_cons.
      * exists q. split; [apply list_elem_of_here|].
        unfold node_data. by rewrite Hq.
      * destruct (Hin x Hx) as (q' & ? & ?). exists q'.
        split; [by apply list_elem_of_further|done].
Qed.

Lemma sorted_transfer {A B : Type} (f1 : A → Q) (f2 : B → Q) res s :
  map f1 res = map f2 s →
  StronglySorted (λ a b, (f2 a <= f2 b)%Q) s →
  StronglySorted (λ a b, (f1 a <= f1 b)%Q) res.
Proof.
  intros Hmap Hs. revert res Hmap.
  induction Hs as [|q s' Hs' IH Hq]; intros [|x res] Hd;
    simplify_eq/=; [constructor|].
  constructor; [by apply IH|].
  rewrite H. clear -Hq H0. revert res H0.
  induction Hq as [|y s' Hy Hq IH]; intros [|z res] Hd;
    simplify_eq/=; constructor; [by rewrite H|by apply IH].
Qed.

Lemma args_min_contract h p Qi k :
  Forall (λ q, is_Some (h !! q)) Qi →
  length (args_min h Qi (map (node_dist distance h p) Qi) k)
  = (Z.to_nat k `min` length Qi)%nat
  ∧ (∀ x, x ∈ args_min h Qi (map (node_dist distance h p) Qi) k →
       ∃ q, q ∈ Qi ∧ node_data h q = Some x)
  ∧ StronglySorted (λ a b, (distance p a <= distance p b)%Q)
      (args_min h Qi (map (node_dist distance h p) Qi) k).
Proof.
  intros Hlive. rewrite args_min_aligned.
  set (s := take (Z.to_nat k) (sorted_by (node_dist distance h p) Qi)).
  assert (Hs : Forall (λ q, is_Some (h !! q)) s).
  { apply Forall_take. apply Forall_forall. intros q Hq%sorted_by_elem.
    by eapply Forall_forall in Hlive. }
  destruct (omap_node_data_live h p s Hs) as (res & -> & Hlen & Hd & Hin).
  split_and!.
  - rewrite Hlen. unfold s. by rewrite length_take, sorted_by_length.
  - intros x Hx. destruct (Hin x Hx) as (q & Hq & ?). exists q.
    split; [|done]. apply subseteq_take in Hq. by apply sorted_by_elem in Hq.
  - eapply sorted_transfer; [done|]. apply take_sorted, sorted_by_sorted.
Qed.

(** X7.  [args_min] on live candidates paired with their distances to [p]:
    it returns [k] payloads, or all of them if there are fewer than [k]
    candidates (none for [k <= 0]); each is the payload of a candidate; and
    they come in ascending order of distance to [p]. *)
Theorem args_min_selects h p Qi k :
  Forall (λ q, is_Some (h !! q)) Qi →
  length (args_min h Qi (map (node_dist distance h p) Qi) k)
  = (Z.to_nat k `min` length Qi)%nat
  ∧ (∀ x, x ∈ args_min h Qi (map (node_dist distance h p) Qi) k →
       ∃ q, q ∈ Qi ∧ node_data h q = Some x)
  ∧ StronglySorted (λ a b, (distance p a <= distance p b)%Q)
      (args_min h Qi (map (node_dist distance h p) Qi) k).
Proof. apply args_min_contract. Qed.

(** *** [knn] *)




(** X9.  With [k <= 0] the selection of the [k] smallest distances is
    empty, and taking its last element fails: on a tree with a root (and
    [minlevel <= maxlevel]), [knn] and [knn_insert] raise [IndexError] in
    their first iteration instead of returning an empty list. *)
Theorem knn_nonpositive_k_IndexError fuel t p k r rt :
  root t = Some rt →
  minlevel t ≤ maxlevel t →
  k ≤ 0 →
  knn distance base_pow add t p k = (Raise "IndexError", 1%nat)
  ∧ knn_insert distance base_pow add (S fuel) t p k r
    = Some (Raise "IndexError", 1%nat).
Proof.
  intros Hroot Hmm Hk.
  assert (Hnil : ∀ l : list Q, nsmallest k l id = []).
  { intros l. unfold nsmallest. by replace (Z.to_nat k) with 0%nat by lia. }
  split.
  - unfold knn, knn_iter, start. rewrite Hroot.
    rewrite reversed_xrange_cons by done. cbn [for_each].
    unfold knn_body at 1.
    destruct (getChildrenDist _ _ _ _ _ _) as [Q_ Q_p_ds].
    by rewrite Hnil.
  - unfold knn_insert, knn_insert_iter, start. rewrite Hroot.
    cbn [while knn_insert_cond]. simpl negb. cbn [orb].
    unfold knn_insert_body at 1.
    destruct (getChildrenDist _ _ _ _ _ _) as [Q_ Q_p_ds].
    cbv zeta. by rewrite Hnil.
Qed.

(** *** [insert] *)

Lemma insert_body_no_raise t p r Qi i :
  (∀ j, j ≤ i + 1 → ∃ b, base_pow j = Ok b) → Qi ≠ [] →
  Forall (λ q, le_pow base_pow (node_dist distance (heap t) p q) (i + 1)) Qi →
  match insert_body distance base_pow t p r
          (Qi, map (node_dist distance (heap t) p) Qi, i) with
  | Ok (Next (Qi', ds', i')) =>
    Qi' ≠ [] ∧ ds' = map (node_dist distance (heap t) p) Qi' ∧ i' = i - 1
    ∧ Forall (λ q, le_pow base_pow (node_dist distance (heap t) p q) i) Qi'
  | Ok (Return _) => True
  | Raise _ => False
  end.
Proof.
  intros Hpow Hne Hall. unfold insert_body.
  pose proof (getChildrenDist_aligned (heap t) p Qi i) as Hal.
  assert (HQne : (getChildrenDist distance (heap t) p Qi
                    (map (node_dist distance (heap t) p) Qi) i).1 ≠ []).
  { unfold getChildrenDist. simpl. by destruct Qi. }
  destruct (getChildrenDist _ _ _ _ _ _) as [Q_ Q_p_ds].
  simpl in Hal, HQne. subst Q_p_ds.
  destruct (py_min _) as [m|] eqn:Hm; [|by destruct Q_].
  simpl. destruct (Qeq_bool m 0); [done|].
  destruct (Hpow i) as [b_i Hbi]; [lia|]. rewrite Hbi. cbn [bind].
  destruct (Qgt_bool m b_i) eqn:Hgt.
  - destruct (Hpow (i + 1)) as [b_p Hbp]; [lia|]. rewrite Hbp.
    rewrite within_lazy_Ok. simpl.
    destruct Qi as [|q0 Qi]; [done|].
    destruct (choice_nonempty r
      (map fst (within b_p (q0 :: Qi)
                  (map (node_dist distance (heap t) p) (q0 :: Qi)))))
      as [par ->]; [|done].
    eapply within_nonempty; [apply list_elem_of_here|].
    apply Forall_cons in Hall as [(b & Hb & Hle) _].
    rewrite Hbp in Hb. by injection Hb as <-.
  - rewrite within_lazy_Ok. simpl.
    apply py_min_elem in Hm.
    apply list_elem_of_fmap in Hm as (q & -> & Hq).
    assert (Hle : (node_dist distance (heap t) p q <= b_i)%Q).
    { unfold Qgt_bool in Hgt. apply negb_false_iff in Hgt.
      by apply Qle_bool_iff. }
    split_and!.
    + by eapply within_nonempty.
    + apply within_snd.
    + done.
    + rewrite within_fst. apply Forall_forall.
      intros q' [_ Hq']%filter_b_elem. exists b_i. split; [done|].
      by apply Qle_bool_iff.
Qed.

(** X10.  [insert] raises nothing when no power [base ** i] for a level
    [i <= maxlevel + 1] raises and the root is within
    [base ** (maxlevel + 1)] of the new point: whenever the call comes
    back, it comes back normally. *)
Theorem insert_in_range_does_not_raise fuel t p r rt :
  (∀ i, i ≤ maxlevel t + 1 → ∃ b, base_pow i = Ok b) →
  root t = Some rt →
  le_pow base_pow (node_dist distance (heap t) p rt) (maxlevel t + 1) →
  match insert distance base_pow fuel t p r with
  | Some (Raise _, _) => False
  | _ => True
  end.
Proof.
  intros Hpow Hroot Hd. unfold insert, insert_iter, start. rewrite Hroot.
  destruct (while _ _ _ _) as [[out n]|] eqn:Hw; [|done].
  eapply (while_inv
    (λ s : insert_state,
       s.1.1 ≠ [] ∧ s.1.2 = map (node_dist distance (heap t) p) s.1.1
       ∧ s.2 ≤ maxlevel t
       ∧ Forall (λ q, le_pow base_pow (node_dist distance (heap t) p q)
                        (s.2 + 1)) s.1.1)
    (λ out, match out with Raise _ => False | _ => True end)) in Hw.
  - by destruct out as [[?|?]|?].
  - done.
  - intros [[Qi ds] i] (Hne & Hal & Hi & Hall) _. simpl in Hne, Hal, Hi, Hall.
    subst ds.
    assert (Hpow' : ∀ j, j ≤ i + 1 → ∃ b, base_pow j = Ok b)
      by (intros j Hj; apply Hpow; lia).
    pose proof (insert_body_no_raise t p r Qi i Hpow' Hne Hall) as Hb.
    destruct (insert_body _ _ _ _ _ _) as [[[[Qi' ds'] i']|?]|]; [|done..].
    destruct Hb as (? & ? & -> & ?). simpl. split_and!; [done..|lia|].
    by replace (i - 1 + 1) with i by lia.
  - simpl. split_and!; [done..|lia|]. by repeat constructor.
Qed.

(** X11.  Inserting a point that is at distance zero from the root changes
    nothing, provided no distance is negative: the first iteration finds
    the zero and returns. *)
Theorem insert_root_duplicate_noop fuel t p r rt :
  (∀ a b, (0 <= distance a b)%Q) →
  root t = Some rt →
  (node_dist distance (heap t) p rt == 0)%Q →
  insert distance base_pow (S fuel) t p r = Some (Ok t, 1%nat).
Proof.
  intros Hnn Hroot Hd. unfold insert, insert_iter, start. rewrite Hroot.
  cbn [while]. unfold insert_body at 1.
  pose proof (getChildrenDist_aligned (heap t) p [rt] (maxlevel t)) as Hal.
  assert (Hhead : ∃ Q', (getChildrenDist distance (heap t) p [rt]
                    (map (node_dist distance (heap t) p) [rt]) (maxlevel t)).1
                  = rt :: Q').
  { unfold getChildrenDist. simpl. by eexists. }
  change [node_dist distance (heap t) p rt]
    with (map (node_dist distance (heap t) p) [rt]).
  destruct (getChildrenDist _ _ _ _ _ _) as [Q_ Q_p_ds].
  simpl in Hal, Hhead. destruct Hhead as [Q' ->]. subst Q_p_ds.
  destruct (py_min _) as [m|] eqn:Hm; [|done]. simpl.
  assert (Hm0 : (m == 0)%Q).
  { apply Qle_antisym.
    - rewrite <- Hd. by eapply py_min_le_head.
    - apply py_min_elem in Hm.
      apply list_elem_of_fmap in Hm as (q & -> & _).
      unfold node_dist. destruct (heap t !! q); [apply Hnn|apply Qle_refl]. }
  apply Qeq_eq_bool in Hm0. by rewrite Hm0.
Qed.

(** *** [find] *)

Lemma find_root_hit fuel t p rt b :
  base_pow (maxlevel t) = Ok b →
  root t = Some rt →
  minlevel t ≤ maxlevel t →
  (node_dist distance (heap t) p rt == 0)%Q →
  find distance base_pow (S fuel) t p
  = Some (Ok (true, Some (maxlevel t)), 1%nat).
Proof.
  intros Hb Hroot Hmm Hd. unfold find, start. rewrite Hroot.
  cbn [find_rec].
  destruct (getChildrenDist _ _ _ _ _ _) as [Q_ Q_p_ds].
  assert (∃ zn, within_lazy (base_pow (maxlevel t)) Q_ Q_p_ds = Ok zn)
    as [zn ->].
  { unfold within_lazy. destruct (combine Q_ Q_p_ds); [by eexists|].
    rewrite Hb. by eexists. }
  cbn [py_min fold_left].
  assert ((maxlevel t <? minlevel t) = false) as -> by (apply Z.ltb_ge; lia).
  apply Qeq_eq_bool in Hd. by rewrite Hd.
Qed.

(** X12.  A query point at distance zero from the root is found at once,
    at level [maxlevel], when [minlevel <= maxlevel] and the power
    [base ** maxlevel] evaluates to a number (it is evaluated before the
    distance is looked at, and an exception it raises propagates). *)
Theorem find_root_at_maxlevel fuel t p rt b :
  base_pow (maxlevel t) = Ok b →
  root t = Some rt →
  minlevel t ≤ maxlevel t →
  (node_dist distance (heap t) p rt == 0)%Q →
  find distance base_pow (S fuel) t p
  = Some (Ok (true, Some (maxlevel t)), 1%nat).
Proof. apply find_root_hit. Qed.

(** X18.  The first insertion and its lookup: [insert(p)] on a new tree
    makes [p] the root without running the descent, and then [find(p)]
    reports found at level [maxlevel], when [base ** maxlevel] evaluates
    to a number and [distance(p, p)] is zero. *)
Theorem first_insert_then_find fuel fuel' mx p r b :
  base_pow mx = Ok b →
  (distance p p == 0)%Q →
  ∃ t1,
    insert distance base_pow fuel (CoverTree_init mx) p r
    = Some (Ok t1, 0%nat)
    ∧ points t1 = [p]
    ∧ root t1 = Some 0%nat
    ∧ find distance base_pow (S fuel') t1 p
      = Some (Ok (true, Some mx), 1%nat).
Proof.
  intros Hb Hpp. eexists. split; [done|]. split; [done|].
  split; [done|].
  match goal with
  | |- find _ _ _ ?t _ = _ =>
    apply (find_root_hit fuel' t p 0%nat b); [done|done|simpl; lia|done]
  end.
Qed.

Lemma find_rec_shape t p fuel : ∀ Qi ds i,
  i ≤ maxlevel t →
  match find_rec distance base_pow fuel t p Qi ds i with
  | Some (Ok (b, lv), _) =>
    if b then ∃ j, lv = Some j ∧ minlevel t ≤ j ≤ maxlevel t
    else lv = None
  | _ => True
  end.
Proof.
  induction fuel as [|fuel IH]; intros Qi ds i Hi; [done|].
  cbn [find_rec].
  destruct (getChildrenDist _ _ _ _ _ _) as [Q_ Q_p_ds].
  destruct (within_lazy _ _ _) as [zn|]; [|done].
  destruct (py_min ds) as [d|]; [|done].
  destruct (i <? minlevel t) eqn:Hlt; [done|].
  apply Z.ltb_ge in Hlt.
  destruct (Qeq_bool d 0); [by exists i|].
  specialize (IH (map fst zn) (map snd zn) (i - 1)).
  destruct (find_rec _ _ _ _ _ _ _ _) as [[[[b lv]|] n]|]; [|done..].
  apply IH. lia.
Qed.

(** X13.  The two kinds of answer of [find]: found, with a level between
    [minlevel] and [maxlevel]; or not found, with no level. *)
Theorem find_answer_shape fuel t p :
  match find distance base_pow fuel t p with
  | Some (Ok (b, lv), _) =>
    if b then ∃ j, lv = Some j ∧ minlevel t ≤ j ≤ maxlevel t
    else lv = None
  | _ => True
  end.
Proof.
  unfold find. destruct (start distance t p) as [[Qi ds]|]; [|done].
  by apply find_rec_shape.
Qed.

(** X14.  On a built tree [find] reports found only if some stored point is
    at distance zero from the query point. *)
Theorem find_found_only_if_stored fuel fuel' mx ops t p i n :
  run_ops distance base_pow add fuel (CoverTree_init mx) ops = Some t →
  find distance base_pow fuel' t p = Some (Ok (true, i), n) →
  ∃ x, (x ∈ points t) ∧ (distance p x == 0)%Q.
Proof.
  intros Hrun Hfind.
  pose proof (run_ops_wf distance base_pow add _ _ _ _
                (init_wf distance base_pow mx) Hrun) as Hwf.
  destruct (find_found_sound distance base_pow _ _ _ _ _ Hwf Hfind)
    as (q & nd & Hq & Hd).
  exists (data nd). split; [|done].
  unfold points. apply list_elem_of_fmap. exists nd. split; [done|].
  by eapply list_elem_of_lookup_2.
Qed.

(** *** [knn_insert] against [knn] *)







End Queries.

(** ** [knn_insert] against [knn], in exact arithmetic *)

Section KnnInsertExact.

Context {point : Type}.
Variable distance : point -> point -> Q.
Variable base : Q.
Implicit Types (h : list (Node point)) (t : CoverTree point)
  (nd cd qd : Node point) (Qi : list nat) (ds : list Q).

Local Abbreviation wf := (wf distance (exact_pow base)).
Local Abbreviation cands := (cands distance).






End KnnInsertExact.

(** ** Termination of the descent loops *)

Section Termination.

Context {point : Type}.
Variable distance : point -> point -> Q.
Variable base : Q.
Implicit Types (h : list (Node point)) (t : CoverTree point)
  (nd cd qd : Node point) (Qi : list nat) (ds : list Q).

Local Abbreviation wf := (wf distance (exact_pow base)).
Local Abbreviation cands := (cands distance).










End Termination.

(** ** The scenario, evaluated *)

Module ScenarioFacts.
Import Scenario.

Lemma build_tree0 : build [0%Q] = Some tree0.
Proof. by vm_compute. Qed.

Lemma build_tree01 : build [0%Q; 1%Q] = Some tree01.
Proof. by vm_compute. Qed.

Lemma build_tree012 : build [0%Q; 1%Q; 2%Q] = Some tree012.
Proof. by vm_compute. Qed.

Lemma tree0_eq : tree0 = mkTree [mkNode 0%Q ∅ None] (Some 0%nat) 5 5.
Proof. by vm_compute. Qed.

Lemma pow2_nonneg i : Qle_bool 0 (2 ^ i) = true.
Proof. apply Qle_bool_iff, Qpower_0_le. done. Qed.

Lemma pow2_nonneg' i : Qle_bool 0 (0 + 2 ^ i) = true.
Proof.
  apply Qle_bool_iff. rewrite Qplus_0_l. by apply Qpower_0_le.
Qed.

Lemma tree0_children i : getOnlyChildren (heap tree0) 0 i = [].
Proof.
  rewrite tree0_eq. unfold getOnlyChildren. simpl. by rewrite lookup_empty.
Qed.

Lemma knn_insert_duplicate_body r i :
  knn_insert_body absdist (exact_pow 2) exact_add tree0 0%Q 1 r ([0%nat], [0%Q], i, None)
  = Ok (Next ([0%nat], [0%Q], i - 1, None)).
Proof.
  unfold knn_insert_body, getChildrenDist.
  cbn [map concat]. rewrite tree0_children.
  cbn -[Qpower Qle_bool Qplus Z.sub nsmallest exact_pow exact_add
        within_lazy_bound].
  change (nsmallest 1 [0%Q] id) with [0%Q].
  cbn [index_last index_first last bind].
  unfold exact_pow. change (Qeq_bool 2 0) with false. cbn [andb bind].
  unfold Qgt_bool. rewrite pow2_nonneg. cbn [negb bind].
  unfold exact_add. rewrite within_lazy_bound_Fin.
  cbn -[Qpower Qle_bool Qplus Z.sub].
  by rewrite pow2_nonneg'.
Qed.

Lemma knn_insert_duplicate_loop r fuel : ∀ i,
  while fuel (knn_insert_cond tree0) (knn_insert_body absdist (exact_pow 2) exact_add tree0 0%Q 1 r)
    ([0%nat], [0%Q], i, None) = None.
Proof.
  induction fuel as [|fuel IH]; intros i; [done|].
  cbn [while]. rewrite knn_insert_duplicate_body.
  assert (knn_insert_cond tree0 ([0%nat], [0%Q], i, None) = true) as -> by done.
  by rewrite IH.
Qed.

(** C1 (does not hold of the code).  After the successful calls [insert(0)],
    [insert(1)], [insert(2)] the tree stores 0, 1, 2; [knn(1.5, 2)] returns
    1 and 0, while the two stored points nearest to 1.5 are 1 and 2. *)
Theorem knn_differs_from_brute_force :
  build [0%Q; 1%Q; 2%Q] = Some tree012
  ∧ points tree012 = [0%Q; 1%Q; 2%Q]
  ∧ fst (knn absdist (exact_pow 2) exact_add tree012 (3 # 2)%Q 2) = Ok [1%Q; 0%Q]
  ∧ brute_force absdist tree012 (3 # 2)%Q 2 = [1%Q; 2%Q].
Proof. by vm_compute. Qed.

(** C2 (does not hold of the code).  After [insert(0)], [insert(1)] the call
    [find(1)] returns [(False, None)]: the node of 1 enters the candidate
    set at level [minlevel], and the next call returns not-found before it
    looks at it.  After [insert(2)] as well, [find(2)] returns
    [(False, None)], and [find(50)], for a point never inserted and far from
    all stored ones, ends in [min()] of an empty list. *)
Theorem find_misses_inserted_point :
  build [0%Q; 1%Q] = Some tree01
  ∧ points tree01 = [0%Q; 1%Q]
  ∧ fst <$> find absdist (exact_pow 2) 50 tree01 1%Q = Some (Ok (false, None))
  ∧ build [0%Q; 1%Q; 2%Q] = Some tree012
  ∧ fst <$> find absdist (exact_pow 2) 50 tree012 2%Q = Some (Ok (false, None))
  ∧ fst <$> find absdist (exact_pow 2) 50 tree012 50%Q = Some (Raise "ValueError").
Proof. by vm_compute. Qed.

(** C3 (does not hold of the code).  On the tree that holds only 0, the
    loop of [knn_insert(0, 1)] never ends, whatever the fuel: the smallest
    distance stays 0, so no parent is ever found.  And [insert(2)] on the
    tree that already stores 2 does not reach that node and attaches a
    second one. *)
Theorem duplicate_is_not_a_noop :
  (∀ fuel r, knn_insert absdist (exact_pow 2) exact_add fuel tree0 0%Q 1 r = None)
  ∧ (∃ t', fst <$> insert absdist (exact_pow 2) 50 tree012 2%Q 0 = Some (Ok t')
           ∧ points t' = [0%Q; 1%Q; 2%Q; 2%Q]).
Proof.
  split; [|eexists; split; by vm_compute].
  intros fuel r. unfold knn_insert, knn_insert_iter.
  change (start absdist tree0 0%Q) with (Ok ([0%nat], [0%Q]) : result _).
  change (maxlevel tree0) with 5. cbv beta iota.
  by rewrite knn_insert_duplicate_loop.
Qed.

(** C5, the claim refuted: on the empty tree none of the three calls raises
    [EmptyTreeError]. *)
Lemma empty_tree_no_EmptyTreeError :
  ¬ (fst (knn absdist (exact_pow 2) exact_add empty 1%Q 1) = Raise "EmptyTreeError"
     ∧ fst <$> knn_insert absdist (exact_pow 2) exact_add 50 empty 1%Q 1 0
       = Some (Raise "EmptyTreeError")
     ∧ fst <$> find absdist (exact_pow 2) 50 empty 1%Q = Some (Raise "EmptyTreeError")).
Proof. by intros [[=] _]. Qed.

(** C6, the claim refuted: 100 is farther than [2 ^ 5] from the root 0, and
    [insert(100)] raises [IndexError]. *)
Lemma insert_far_point_no_InvalidLevelRangeError :
  (2 ^ maxlevel tree0 < absdist 0 100)%Q
  ∧ fst <$> insert absdist (exact_pow 2) 50 tree0 100%Q 0 = Some (Raise "IndexError")
  ∧ fst <$> insert absdist (exact_pow 2) 50 tree0 100%Q 0
    ≠ Some (Raise "InvalidLevelRangeError").
Proof. by vm_compute. Qed.

(** C7, the claim refuted: on the tree of the scenario [find(100)] does not
    report found, so the three results do not all hold. *)
Lemma scenario_results_fail :
  fst <$> find absdist (exact_pow 2) 50 scenario_tree 100%Q = Some (Raise "ValueError")
  ∧ ¬ ((∃ l, fst (knn absdist (exact_pow 2) exact_add scenario_tree (3 # 2)%Q 2) = Ok l
             ∧ is_pair l 1%Q 2%Q)
       ∧ (∃ i, fst <$> find absdist (exact_pow 2) 50 scenario_tree 100%Q
               = Some (Ok (true, i)))
       ∧ fst <$> find absdist (exact_pow 2) 50 scenario_tree 50%Q
         = Some (Ok (false, None))).
Proof.
  split; [by vm_compute|].
  intros (_ & [i H] & _). vm_compute in H. discriminate H.
Qed.

(** C7 (as the code has it).  The first three insertions succeed;
    [insert(100)] raises [IndexError], because 100 exceeds
    [2 ^ (maxlevel + 1)] and no parent candidate is left, so the tree still
    stores 0, 1, 2 only, and neither [find(100)] nor [find(50)] reports
    found. *)
Theorem scenario_as_coded :
  build [0%Q; 1%Q; 2%Q] = Some tree012
  ∧ insert absdist (exact_pow 2) 50 tree012 100%Q 0 = Some (Raise "IndexError", 1%nat)
  ∧ run_ops absdist (exact_pow 2) exact_add 50 empty scenario_ops = Some scenario_tree
  ∧ points scenario_tree = [0%Q; 1%Q; 2%Q]
  ∧ (∀ i, fst <$> find absdist (exact_pow 2) 50 scenario_tree 100%Q
          ≠ Some (Ok (true, i)))
  ∧ (∀ i, fst <$> find absdist (exact_pow 2) 50 scenario_tree 50%Q
          ≠ Some (Ok (true, i))).
Proof. split_and!; try (by vm_compute); intros i; by vm_compute. Qed.

(** C8, the claim refuted: on the tree that holds only 0, where
    [maxlevel - minlevel + 1 = 1], [insert(1)] runs its loop 7 times, and so
    does [knn_insert(1, 1)]. *)
Lemma insert_descends_below_minlevel :
  snd <$> insert absdist (exact_pow 2) 50 tree0 1%Q 0 = Some 7%nat
  ∧ snd <$> knn_insert absdist (exact_pow 2) exact_add 50 tree0 1%Q 1 0
    = Some 7%nat
  ∧ ¬ (7 ≤ Z.to_nat (maxlevel tree0 - minlevel tree0 + 1))%nat.
Proof. split_and!; [by vm_compute..|]. vm_compute. lia. Qed.

(** C9 (does not hold of the code).  With three stored points and [k = 4],
    [knn(1.5, 4)] returns without error, but only 1 and 0: the stored point
    2 is missing. *)
Theorem knn_large_k_misses_point :
  points tree012 = [0%Q; 1%Q; 2%Q]
  ∧ knn absdist (exact_pow 2) exact_add tree012 (3 # 2)%Q 4 = (Ok [1%Q; 0%Q], 6%nat).
Proof. by vm_compute. Qed.

(** C4, the claim refuted: in base 3, after [insert(0.0)] and
    [insert(3.0 ** -5)] the root lists the second node under key -5 (it was
    attached at level -6), and its distance, the float [3.0 ** -5], is
    above the exact power [3 ^ (-5)]. *)
Lemma rounded_power_exceeds_exact_bound :
  run_ops absdist float_pow3 exact_add 50 (CoverTree_init 0) base3_ops
  = Some base3_tree
  ∧ heap base3_tree !! 0%nat = Some (mkNode 0%Q {[ -5 := [1%nat] ]} None)
  ∧ heap base3_tree !! 1%nat = Some (mkNode p35 ∅ (Some 0%nat))
  ∧ 1%nat ∈ getOnlyChildren (heap base3_tree) 0 (-5)
  ∧ ¬ (absdist p35 0 <= 3 ^ (-5))%Q.
Proof.
  split_and!; [by vm_compute..| |by vm_compute].
  vm_compute. apply list_elem_of_here.
Qed.

(** C4 at work: a tree built by three [insert] calls and one [knn_insert]
    call. *)
Lemma covering_invariant_witness :
  run_ops absdist (exact_pow 2) exact_add 50 (CoverTree_init 5) mixed_ops
  = Some mixed_tree
  ∧ length (heap mixed_tree) = 4%nat
  ∧ ∀ n nd, heap mixed_tree !! n = Some nd → root mixed_tree ≠ Some n →
      ∃ q qd L b,
        parent nd = Some q ∧ heap mixed_tree !! q = Some qd
        ∧ n ∈ getOnlyChildren (heap mixed_tree) q L
        ∧ (∀ q' L', n ∈ getOnlyChildren (heap mixed_tree) q' L' →
             q' = q ∧ L' = L)
        ∧ exact_pow 2 L = Ok b
        ∧ (absdist (data nd) (data qd) <= b)%Q.
Proof.
  split; [by vm_compute|]. split; [by vm_compute|].
  apply (covering_invariant absdist (exact_pow 2) exact_add 50 5 mixed_ops
           mixed_tree).
  by vm_compute.
Defined.

(** C10 at work: the node of 2, a child of the node of 1, is handed to
    [addChild] of the root; its parent becomes the root and the node of 1
    still lists it. *)
Lemma addChild_always_reparents_witness :
  parent <$> addChild (heap tree012) 0 2 0 !! 2%nat = Some (Some 0%nat)
  ∧ 2%nat ∈ getOnlyChildren (addChild (heap tree012) 0 2 0) 1 0.
Proof.
  assert (H0 : heap tree012 !! 0%nat
               = Some (mkNode 0%Q {[ 0 := [1%nat] ]} None)) by (by vm_compute).
  assert (H2 : heap tree012 !! 2%nat
               = Some (mkNode 2%Q ∅ (Some 1%nat))) by (by vm_compute).
  destruct (addChild_always_reparents (heap tree012) 0 2 0 _ _ H0 H2)
    as (Hp & _ & _ & Hold & _).
  split; [exact Hp|]. apply Hold; [done|done|].
  vm_compute. apply list_elem_of_here.
Defined.

(** C6 at work on the tree that holds only 0: 100 is beyond [2 ^ 6] and
    [insert] raises [IndexError]; 50 is between [2 ^ 5] and [2 ^ 6] and is
    attached under the root at key 6.  And with the float base 2.0 and
    [maxlevel = 1023], inserting [1.5 * 2 ^ 1023] ends in the
    [OverflowError] of [2.0 ** 1024]. *)
Lemma insert_beyond_maxlevel_witness :
  insert absdist (exact_pow 2) 1 tree0 100%Q 0
  = Some (Raise "IndexError", 1%nat)
  ∧ insert absdist (exact_pow 2) 1 tree0 50%Q 0
    = Some (Ok (attach tree0 0 50%Q 6), 1%nat)
  ∧ insert absdist float_pow2 1 top_tree (3 * 2 ^ 1022)%Q 0
    = Some (Raise "OverflowError", 1%nat).
Proof.
  split; [|split].
  - rewrite (insert_beyond_maxlevel absdist (exact_pow 2) 0 tree0 100%Q 0 0
               (2 ^ 5)%Q); [by vm_compute..|].
    vm_compute. constructor.
  - rewrite (insert_beyond_maxlevel absdist (exact_pow 2) 0 tree0 50%Q 0 0
               (2 ^ 5)%Q); [by vm_compute..|].
    vm_compute. constructor.
  - rewrite (insert_beyond_maxlevel absdist float_pow2 0 top_tree
               (3 * 2 ^ 1022)%Q 0 0 (2 ^ 1023)%Q); [by vm_compute..|].
    assert (getOnlyChildren (heap top_tree) 0 (maxlevel top_tree) = [])
      as -> by (by vm_compute).
    constructor.
Defined.

End ScenarioFacts.

(** ** The further properties at work *)

Module CasesFacts.
Import Scenario Cases.

(** X1 at work: the node of 2 is added to the root's list under key 0. *)
Lemma addChild_lists_child_once_witness :
  2%nat ∈ getOnlyChildren (addChild (heap tree012) 0 2 0) 0 0
  ∧ NoDup (getOnlyChildren (addChild (heap tree012) 0 2 0) 0 0).
Proof.
  eapply addChild_lists_child_once.
  - by vm_compute.
  - vm_compute. apply NoDup_singleton.
Defined.

(** X2 at work. *)
Lemma addChild_idempotent_witness :
  addChild (addChild (heap tree012) 0 2 0) 0 2 0
  = addChild (heap tree012) 0 2 0.
Proof. eapply addChild_idempotent; by vm_compute. Defined.


(** X4 at work: the parentless root is attached under the node of 2 at
    level 3 and detached again. *)
Lemma addChild_removeConnections_witness :
  ∃ h', removeConnections (addChild (heap tree012) 2 0 3) 0 (3 - 1) = Ok h'
        ∧ (∀ q L', getOnlyChildren h' q L'
                   = getOnlyChildren (heap tree012) q L')
        ∧ (∀ q, parent <$> h' !! q = parent <$> heap tree012 !! q)
        ∧ (∀ q, data <$> h' !! q = data <$> heap tree012 !! q).
Proof.
  eapply addChild_removeConnections.
  - by vm_compute.
  - by vm_compute.
  - lia.
  - by vm_compute.
  - vm_compute. apply not_elem_of_nil.
Defined.

(** X5 at work on the tree built by three [insert] calls and one
    [knn_insert] call. *)
Lemma built_tree_bookkeeping_witness :
  maxlevel mixed_tree = 5
  ∧ minlevel mixed_tree ≤ 5
  ∧ (length (heap mixed_tree) ≤ length mixed_ops)%nat
  ∧ match root mixed_tree with
    | None => heap mixed_tree = []
    | Some r => r = 0%nat ∧ heap mixed_tree ≠ []
    end
  ∧ (∀ q L c, c ∈ getOnlyChildren (heap mixed_tree) q L →
       minlevel mixed_tree ≤ L ≤ 5 + 1)
  ∧ (∀ q L, NoDup (getOnlyChildren (heap mixed_tree) q L)).
Proof.
  apply (built_tree_bookkeeping absdist (exact_pow 2) exact_add 50 5 mixed_ops
           mixed_tree).
  by vm_compute.
Defined.

(** X6 at work: [knn_insert(3, 1)] on the tree holding 0, 1, 2. *)
Lemma operations_only_append_witness :
  (points tree012_3 = points tree012
   ∨ points tree012_3 = points tree012 ++ [3%Q])
  ∧ ∀ q nd, heap tree012 !! q = Some nd →
      ∃ nd', heap tree012_3 !! q = Some nd' ∧ data nd' = data nd
             ∧ parent nd' = parent nd
             ∧ ∀ L, getOnlyChildren (heap tree012) q L
                    `prefix_of` getOnlyChildren (heap tree012_3) q L.
Proof.
  apply (operations_only_append absdist (exact_pow 2) exact_add 50 50 5
           ops012 tree012 (KnnInsert 3%Q 1 0%nat) tree012_3); by vm_compute.
Defined.

(** X7 at work: the two stored points nearest to 1.5 among all three. *)
Lemma args_min_selects_witness :
  length (args_min (heap tree012) [0; 1; 2]%nat
            (map (node_dist absdist (heap tree012) (3 # 2)%Q) [0; 1; 2]%nat) 2)
  = 2%nat.
Proof.
  refine (proj1 (args_min_selects absdist (heap tree012) (3 # 2)%Q
                   [0; 1; 2]%nat 2 _)).
  repeat (apply Forall_cons_2; [eexists; by vm_compute|]).
  apply Forall_nil_2.
Defined.


(** X9 at work: [k = 0]. *)
Lemma knn_nonpositive_k_IndexError_witness :
  knn absdist (exact_pow 2) exact_add tree012 (3 # 2)%Q 0 = (Raise "IndexError", 1%nat)
  ∧ knn_insert absdist (exact_pow 2) exact_add 1 tree012 (3 # 2)%Q 0 0
    = Some (Raise "IndexError", 1%nat).
Proof.
  apply (knn_nonpositive_k_IndexError absdist (exact_pow 2) exact_add 0
           tree012 (3 # 2)%Q 0 0 0); by vm_compute.
Defined.

(** X10 at work: 1 is within [2 ^ 6] of the root 0. *)
Lemma insert_in_range_does_not_raise_witness :
  match insert absdist (exact_pow 2) 50 tree0 1%Q 0 with
  | Some (Raise _, _) => False
  | _ => True
  end.
Proof.
  apply (insert_in_range_does_not_raise absdist (exact_pow 2) 50 tree0 1%Q
           0 0).
  - intros i _. exists (2 ^ i)%Q. by apply exact_pow_pos.
  - by vm_compute.
  - exists (2 ^ 6)%Q. split; by vm_compute.
Defined.

(** X11 at work: inserting 0 into the tree whose root is 0. *)
Lemma insert_root_duplicate_noop_witness :
  insert absdist (exact_pow 2) 1 tree012 0%Q 0 = Some (Ok tree012, 1%nat).
Proof.
  apply (insert_root_duplicate_noop absdist (exact_pow 2) 0 tree012 0%Q 0 0).
  - intros a b. apply Qabs_nonneg.
  - by vm_compute.
  - by vm_compute.
Defined.

(** X12 at work: [find(0)] on the tree whose root is 0. *)
Lemma find_root_at_maxlevel_witness :
  find absdist (exact_pow 2) 1 tree012 0%Q
  = Some (Ok (true, Some (maxlevel tree012)), 1%nat).
Proof.
  apply (find_root_at_maxlevel absdist (exact_pow 2) 0 tree012 0%Q 0
           (2 ^ 5)%Q); by vm_compute.
Defined.

(** X14 at work: [find(0)] reports found, and 0 is stored. *)
Lemma find_found_only_if_stored_witness :
  ∃ x, (x ∈ points tree012) ∧ (absdist 0 x == 0)%Q.
Proof.
  apply (find_found_only_if_stored absdist (exact_pow 2) exact_add 50 50 5
           ops012 tree012 0%Q (Some 5) 1); by vm_compute.
Defined.




(** X18 at work with the point 7. *)
Lemma first_insert_then_find_witness :
  ∃ t1,
    insert absdist (exact_pow 2) 0 (CoverTree_init 5) 7%Q 0 = Some (Ok t1, 0%nat)
    ∧ points t1 = [7%Q]
    ∧ root t1 = Some 0%nat
    ∧ find absdist (exact_pow 2) 1 t1 7%Q = Some (Ok (true, Some 5), 1%nat).
Proof.
  apply (first_insert_then_find absdist (exact_pow 2) 0 0 5 7%Q 0 (2 ^ 5)%Q);
    by vm_compute.
Defined.

End CasesFacts.
